(** * gemmlowp, internal/pack_sse.h: the SSE packing kernel

    A shallow embedding of [SSERequantize] and of
    [PackingRegisterBlock::Pack] for the width-major 4x2 cell format, with
    the SSE intrinsics they use modelled on 16-byte registers. *)

From Stdlib Require Import ZArith List Lia.
From stdpp Require Import base list gmap functions.

Local Open Scope Z_scope.

(** ** 128-bit registers and the intrinsics of <smmintrin.h> used here *)

(** An [__m128i] is its 16 bytes, lowest address (lowest lane) first. *)
Definition m128i := list Z.

Definition u8 (r : m128i) (i : nat) : Z := nth i r 0.

(** 16-bit lane [i], unsigned and signed reading. *)
Definition epu16 (r : m128i) (i : nat) : Z :=
  u8 r (2 * i) + 256 * u8 r (2 * i + 1).

Definition epi16 (r : m128i) (i : nat) : Z :=
  let w := epu16 r i in if w <? 32768 then w else w - 65536.

(** 32-bit lane [i], unsigned reading. *)
Definition epu32 (r : m128i) (i : nat) : Z :=
  u8 r (4 * i) + 256 * u8 r (4 * i + 1)
  + 65536 * u8 r (4 * i + 2) + 16777216 * u8 r (4 * i + 3).

Definition bytes_of_u16 (w : Z) : list Z := [w mod 256; (w / 256) mod 256].

Definition bytes_of_u32 (d : Z) : list Z :=
  [d mod 256; (d / 256) mod 256; (d / 65536) mod 256; (d / 16777216) mod 256].

(** Two's complement reading of a 32-bit pattern, and the wrap-around of
    [std::int32_t] arithmetic. *)
Definition s32 (d : Z) : Z := if d <? 2147483648 then d else d - 4294967296.

Definition wrap_int32 (x : Z) : Z := s32 (x mod 4294967296).

Definition _mm_set1_epi16 (v : Z) : m128i :=
  flat_map (fun _ : nat => bytes_of_u16 (v mod 65536)) (seq 0 8).

(** Loads 8 bytes from byte memory at [p], upper 8 bytes zeroed. *)
Definition _mm_loadl_epi64 (mem : Z -> Z) (p : Z) : m128i :=
  map (fun k : nat => mem (p + Z.of_nat k)) (seq 0 8) ++ repeat 0 8.

(** Stores the low 8 bytes of [r] at [p]. *)
Definition _mm_storel_epi64 (mem : gmap Z Z) (p : Z) (r : m128i) : gmap Z Z :=
  fold_left (fun m (k : nat) => <[p + Z.of_nat k := u8 r k]> m) (seq 0 8) mem.

Definition _mm_unpacklo_epi16 (a b : m128i) : m128i :=
  flat_map (fun i : nat =>
              [u8 a (2 * i); u8 a (2 * i + 1); u8 b (2 * i); u8 b (2 * i + 1)])
           (seq 0 4).

Definition _mm_shuffle_epi32 (a : m128i) (imm : Z) : m128i :=
  flat_map (fun i : nat =>
              let s := Z.to_nat (Z.land (Z.shiftr imm (2 * Z.of_nat i)) 3) in
              [u8 a (4 * s); u8 a (4 * s + 1); u8 a (4 * s + 2); u8 a (4 * s + 3)])
           (seq 0 4).

Definition _mm_blend_epi16 (a b : m128i) (imm : Z) : m128i :=
  flat_map (fun i : nat =>
              if Z.testbit imm (Z.of_nat i)
              then [u8 b (2 * i); u8 b (2 * i + 1)]
              else [u8 a (2 * i); u8 a (2 * i + 1)])
           (seq 0 8).

Definition _mm_cvtepu8_epi16 (a : m128i) : m128i :=
  flat_map (fun i : nat => [u8 a i; 0]) (seq 0 8).

Definition _mm_madd_epi16 (a b : m128i) : m128i :=
  flat_map (fun i : nat =>
              bytes_of_u32
                ((epi16 a (2 * i) * epi16 b (2 * i)
                  + epi16 a (2 * i + 1) * epi16 b (2 * i + 1)) mod 4294967296))
           (seq 0 4).

Definition _mm_add_epi32 (a b : m128i) : m128i :=
  flat_map (fun i : nat => bytes_of_u32 ((epu32 a i + epu32 b i) mod 4294967296))
           (seq 0 4).

(** Unaligned 16-byte load and store through a [std::int32_t*]: four
    consecutive 32-bit entries of the array. *)
Definition _mm_loadu_si128 (arr : Z -> Z) (p : Z) : m128i :=
  flat_map (fun i : nat => bytes_of_u32 (arr (p + Z.of_nat i) mod 4294967296))
           (seq 0 4).

Definition _mm_storeu_si128 (arr : Z -> Z) (p : Z) (r : m128i) : Z -> Z :=
  fold_left (fun f (i : nat) => <[p + Z.of_nat i := s32 (epu32 r i)]> f)
            (seq 0 4) arr.

(** ** Collaborators declared in pack.h *)

(** Modelled from the spec: [ScalarRoundingOffsetGenerator] (pack.h is not
    among the sources).  A stateful source of rounding offsets; [get]
    returns the next offset and the advanced state. *)
Class ScalarRoundingOffsetGenerator (Gen : Type) := { get : Gen -> Z * Gen }.

(** The state after [n] draws, and the [k]-th offset drawn from [g]. *)
Fixpoint gen_advance `{ScalarRoundingOffsetGenerator Gen} (n : nat) (g : Gen) : Gen :=
  match n with
  | O => g
  | S n' => gen_advance n' (snd (get g))
  end.

Definition gen_offset `{ScalarRoundingOffsetGenerator Gen} (g : Gen) (k : nat) : Z :=
  fst (get (gen_advance k g)).

(** Two generators used in the examples: a constant one (round to
    nearest) and a counter cycling through 0..254. *)
Definition nearest_generator : ScalarRoundingOffsetGenerator unit :=
  {| get := fun u => (127, u) |}.

Definition counter_generator : ScalarRoundingOffsetGenerator Z :=
  {| get := fun s => (s mod 255, s + 1) |}.

(** Modelled from the spec: the width-major [SideMap] over the source
    matrix (pack.h/side_map.h are not among the sources): byte memory, the
    address of element (0,0) and the stride between consecutive width
    rows; consecutive depth positions are contiguous. *)
Record SideMap := {
  sm_mem : Z -> Z;
  sm_data : Z;
  sm_stride : Z
}.

Definition width_stride (m : SideMap) : Z := sm_stride m.

Definition data (m : SideMap) (w d : Z) : Z := sm_data m + w * sm_stride m + d.

(** Cell format [CellFormat<4, 2, CellOrder::WidthMajor>]. *)
Definition kCellWidth : Z := 4.
Definition kCellDepth : Z := 2.
Definition kCellSize : Z := kCellWidth * kCellDepth.

(** Modelled from the spec: [PackedSideBlock] (pack.h is not among the
    sources): the destination bytes, the forward-only cursor (a byte
    position, always a whole number of cells) and one 32-bit accumulator
    per absolute output column. *)
Record PackedSideBlock := {
  buf : gmap Z Z;
  pos : Z;
  sums : Z -> Z
}.

Definition current_data (dst : PackedSideBlock) : Z := pos dst.

Definition seek_forward_n_cells (n : Z) (dst : PackedSideBlock) : PackedSideBlock :=
  {| buf := buf dst; pos := pos dst + n * kCellSize; sums := sums dst |}.

(** ** SSERequantize *)

Section Requantize.
Context {Gen : Type} `{!ScalarRoundingOffsetGenerator Gen}.
Variable kBits : Z.

(** [static const std::uint8_t kMaxVal = (1 << kBits) - 1]. *)
Definition kMaxVal : Z := (Z.shiftl 1 kBits - 1) mod 256.

(** One element of the loop: [scaled] is a [std::uint16_t], the offset
    and the stored result are [std::uint8_t]; the division is C's
    truncating division on [int]. *)
Definition requantize_value (v off : Z) : Z :=
  let scaled := (v * kMaxVal) mod 65536 in
  let rounding_offset := off mod 256 in
  Z.quot (scaled + rounding_offset) 255 mod 256.

Definition requantize_step (st : m128i * Gen) (i : nat) : m128i * Gen :=
  let drawn := get (snd st) in
  let rounding_offset := fst drawn in
  (<[i := requantize_value (u8 (fst st) i) rounding_offset]> (fst st),
   snd drawn).

Definition SSERequantize (raw_src : m128i) (g : Gen) : m128i * Gen :=
  if kBits =? 8 then (raw_src, g)
  else fold_left requantize_step (seq 0 8) (raw_src, g).
End Requantize.

(** ** PackingRegisterBlock::Pack *)

(** [for (int i = start; i < bound; i += step) body(i)], with the number
    of iterations bounded by [fuel]. *)
Fixpoint for_loop {St : Type} (fuel : nat) (i bound step : Z)
    (body : Z -> St -> St) (s : St) : St :=
  match fuel with
  | O => s
  | S fuel' =>
      if i <? bound then for_loop fuel' (i + step) bound step body (body i s)
      else s
  end.

(** The local state of [Pack]: the running [dst_ptr], the destination
    block and the rounding offset generator. *)
Record PackState (Gen : Type) := {
  dst_ptr : Z;
  blk : PackedSideBlock;
  rog : Gen
}.
Arguments dst_ptr {Gen} _.
Arguments blk {Gen} _.
Arguments rog {Gen} _.

Section Pack.
Context {Gen : Type} `{!ScalarRoundingOffsetGenerator Gen}.
(** [QuantizationParams::BitDepth::kBits], the template argument
    [Cells], and [kRegisterSize] of the common headers. *)
Variables kBits kCells kRegisterSize : Z.

Definition kKernelWidth : Z := kCellWidth * kCells.

Definition depth_step : Z := 8.

(** The body of the inner loop, for the sub-tile at
    [(cell_start_width, cell_start_depth)].  A pointer into the sums
    array is the index of the entry it points to. *)
Definition pack_cell (src : SideMap) (start_width : Z)
    (cell_start_depth cell_start_width : Z) (st : PackState Gen)
    : PackState Gen :=
  let dst := blk st in
  let dst_ptr := dst_ptr st in
  let one := _mm_set1_epi16 1 in
  let cell_sums_of_each_slice_ptr := start_width + cell_start_width in
  let src_data := data src cell_start_width cell_start_depth in
  let xmm1 := _mm_loadl_epi64 (sm_mem src) src_data in
  let xmm2 := _mm_loadl_epi64 (sm_mem src) (src_data + 1 * width_stride src) in
  let xmm3 := _mm_loadl_epi64 (sm_mem src) (src_data + 2 * width_stride src) in
  let xmm4 := _mm_loadl_epi64 (sm_mem src) (src_data + 3 * width_stride src) in
  let xmm5 := _mm_unpacklo_epi16 xmm1 xmm2 in
  let xmm8 := _mm_shuffle_epi32 xmm5 0x31 in
  let xmm6 := _mm_unpacklo_epi16 xmm3 xmm4 in
  let xmm7 := _mm_shuffle_epi32 xmm6 0x80 in
  let xmm9 := _mm_blend_epi16 xmm5 xmm7 0xcc in
  let '(xmm9, g) := SSERequantize kBits xmm9 (rog st) in
  let xmm10 := _mm_blend_epi16 xmm8 xmm6 0xcc in
  let '(xmm10, g) := SSERequantize kBits xmm10 g in
  let b := _mm_storel_epi64 (buf dst) dst_ptr xmm9 in
  let b := _mm_storel_epi64 b (dst_ptr + kCellSize * kCells) xmm10 in
  let xmm11 := _mm_shuffle_epi32 xmm9 0xee in
  let '(xmm11, g) := SSERequantize kBits xmm11 g in
  let xmm12 := _mm_shuffle_epi32 xmm10 0xee in
  let '(xmm12, g) := SSERequantize kBits xmm12 g in
  let b := _mm_storel_epi64 b (dst_ptr + 2 * kCellSize * kCells) xmm11 in
  let b := _mm_storel_epi64 b (dst_ptr + 3 * kCellSize * kCells) xmm12 in
  let xmm1 := _mm_cvtepu8_epi16 xmm9 in
  let xmm2 := _mm_madd_epi16 xmm1 one in
  let sums_of_each_slice_xmm :=
    _mm_loadu_si128 (sums dst) cell_sums_of_each_slice_ptr in
  let sums_of_each_slice_xmm := _mm_add_epi32 sums_of_each_slice_xmm xmm2 in
  let xmm1 := _mm_cvtepu8_epi16 xmm10 in
  let xmm2 := _mm_madd_epi16 xmm1 one in
  let sums_of_each_slice_xmm := _mm_add_epi32 sums_of_each_slice_xmm xmm2 in
  let xmm1 := _mm_cvtepu8_epi16 xmm11 in
  let xmm2 := _mm_madd_epi16 xmm1 one in
  let sums_of_each_slice_xmm := _mm_add_epi32 sums_of_each_slice_xmm xmm2 in
  let xmm1 := _mm_cvtepu8_epi16 xmm12 in
  let xmm2 := _mm_madd_epi16 xmm1 one in
  let sums_of_each_slice_xmm := _mm_add_epi32 sums_of_each_slice_xmm xmm2 in
  let s := _mm_storeu_si128 (sums dst) cell_sums_of_each_slice_ptr
                            sums_of_each_slice_xmm in
  {| dst_ptr := dst_ptr + kCellSize;
     blk := {| buf := b; pos := pos dst; sums := s |};
     rog := g |}.

(** The body of the outer loop: one strip of [depth_step] depth
    positions over the whole kernel width. *)
Definition pack_strip (src : SideMap) (start_width : Z)
    (cell_start_depth : Z) (st : PackState Gen) : PackState Gen :=
  let st := for_loop (Z.to_nat kKernelWidth) 0 kKernelWidth kCellWidth
              (pack_cell src start_width cell_start_depth) st in
  {| dst_ptr := dst_ptr st + 3 * kCellSize * kCells;
     blk := blk st;
     rog := rog st |}.

(** The two loops of [Pack], from [dst_ptr = dst->current_data()] on. *)
Definition Pack_loops (src : SideMap) (dst : PackedSideBlock) (start_width : Z)
    (rounding_offset_generator : Gen) : PackState Gen :=
  let st := {| dst_ptr := current_data dst; blk := dst;
               rog := rounding_offset_generator |} in
  for_loop (Z.to_nat kRegisterSize) 0 kRegisterSize depth_step
    (pack_strip src start_width) st.

(** [Pack] returns nothing; its effects are the destination block and the
    generator it leaves. *)
Definition Pack (src : SideMap) (dst : PackedSideBlock) (start_width : Z)
    (rounding_offset_generator : Gen) : PackedSideBlock * Gen :=
  let st := Pack_loops src dst start_width rounding_offset_generator in
  (seek_forward_n_cells (Z.quot (kCells * kRegisterSize) kCellDepth) (blk st),
   rog st).
End Pack.

(** ** Vocabulary of the statements *)

(** A register given by its four 32-bit lanes. *)
Definition lanes32 (f : nat -> Z) : m128i :=
  flat_map (fun i : nat => bytes_of_u32 (f i)) (seq 0 4).

(** [sum_upto n f] is [f 0 + ... + f (n-1)]. *)
Fixpoint sum_upto (n : nat) (f : nat -> Z) : Z :=
  match n with
  | O => 0
  | S n' => sum_upto n' f + f n'
  end.

(** The widening of a register's low 8 bytes to pairwise 32-bit sums. *)
Definition pair_sums (r : m128i) : m128i :=
  _mm_madd_epi16 (_mm_cvtepu8_epi16 r) (_mm_set1_epi16 1).

(** What one sub-tile adds to 32-bit lane [w] of the accumulator register:
    the lane of each of its four groups' pairwise sums. *)
Definition cell_lane_sum (G : nat -> m128i) (w : nat) : Z :=
  epu32 (pair_sums (G 0%nat)) w + epu32 (pair_sums (G 1%nat)) w
  + epu32 (pair_sums (G 2%nat)) w + epu32 (pair_sums (G 3%nat)) w.

(** The number of iterations of the outer loop of [Pack]. *)
Definition n_strips (kRegisterSize : Z) : nat := Z.to_nat ((kRegisterSize + 7) / 8).

(** The depth the outer loop covers: [kRegisterSize] rounded up to a
    whole number of strips. *)
Definition depth_extent (kRegisterSize : Z) : Z := 8 * Z.of_nat (n_strips kRegisterSize).

(** The packed layout.  The byte of column [c] and depth [d] lies, from
    the cursor, in the row of cells of its depth pair, in the cell of its
    column group, and inside the cell width-major. *)
Definition dst_offset (kCells c d : Z) : Z :=
  (d / kCellDepth) * (kCellSize * kCells)
  + (c / kCellWidth) * kCellSize
  + (c mod kCellWidth) * kCellDepth + d mod kCellDepth.

(** The column and the depth of the byte at offset [o]. *)
Definition dst_column (kCells o : Z) : Z := (o mod (kCellSize * kCells)) / kCellDepth.

Definition dst_depth (kCells o : Z) : Z :=
  kCellDepth * (o / (kCellSize * kCells)) + (o mod (kCellSize * kCells)) mod kCellDepth.

(** The rank of the byte of column [c] and depth [d] in the order in which
    [Pack] visits the bytes of a block: sub-tiles of 4 columns by 8 depth
    positions, strip after strip and, in a strip, column group after
    column group; in a sub-tile, depth pair after depth pair and, in a
    depth pair, column after column. *)
Definition visit_index (kCells c d : Z) : nat :=
  Z.to_nat (32 * ((d / 8) * kCells + c / 4)
            + 8 * ((d mod 8) / 2) + 2 * (c mod 4) + d mod 2).

(** The sum of the bytes of column [c] over the first [depth] depth
    positions of the block packed at [p0]; an absent byte counts 0. *)
Definition column_sum (b : gmap Z Z) (p0 kCells c : Z) (depth : nat) : Z :=
  sum_upto depth (fun d => default 0 (b !! (p0 + dst_offset kCells c (Z.of_nat d)))).

Section Vocabulary.
Context {Gen : Type} `{!ScalarRoundingOffsetGenerator Gen}.
Variable kBits : Z.

(** The number of offsets drawn while [n] bytes are requantized. *)
Definition draws (n : nat) : nat := if kBits =? 8 then 0%nat else n.

(** What requantization makes of the byte [v] when it is the [k]-th
    byte visited since the generator was in state [g]. *)
Definition requantized (g : Gen) (k : nat) (v : Z) : Z :=
  if kBits =? 8 then v else requantize_value kBits v (gen_offset g k).

(** The source byte at (width [w], depth [d]) of the source view. *)
Definition src_at (src : SideMap) (w d : Z) : Z := sm_mem src (data src w d).

(** For the sub-tile whose first column is [c] and first depth is [d]:
    the byte at position [i] of its [j]-th 8-byte group, when the
    generator is in state [g] as the sub-tile is entered.  It comes from
    column [c + i/2], depth [d + 2j + i mod 2], and is the
    [(8j+i)]-th byte visited. *)
Definition packed_byte (src : SideMap) (g : Gen) (c d : Z) (j i : nat) : Z :=
  requantized g (8 * j + i)
    (src_at src (c + Z.of_nat (i / 2)) (d + Z.of_nat (2 * j + i mod 2))).

Definition packed_group (src : SideMap) (g : Gen) (c d : Z) (j : nat) : m128i :=
  map (packed_byte src g c d j) (seq 0 8).

(** The byte [Pack] writes for column [c] and depth [d] of the block. *)
Definition block_byte (kCells : Z) (src : SideMap) (g : Gen) (c d : Z) : Z :=
  requantized g (visit_index kCells c d) (src_at src c d).
End Vocabulary.

(** An accumulator entry after [M] strips have each added to it: the
    32-bit addition wraps, and nothing happens to it when there is no
    strip. *)
Definition accumulated (M : nat) (old delta : Z) : Z :=
  match M with
  | O => old
  | S _ => wrap_int32 (old + delta)
  end.

Section UnrolledLoops.
Context {Gen : Type} `{!ScalarRoundingOffsetGenerator Gen}.
Variables (kBits kCells : Z) (src : SideMap) (start_width : Z).

(** The first [m] iterations of the inner loop. *)
Definition strip_cells (m : nat) (d : Z) (st : PackState Gen) : PackState Gen :=
  fold_left (fun st k => pack_cell kBits kCells src start_width d (4 * Z.of_nat k) st)
            (seq 0 m) st.

(** The first [M] iterations of the outer loop. *)
Definition block_strips (M : nat) (st : PackState Gen) : PackState Gen :=
  fold_left (fun st s => pack_strip kBits kCells src start_width (8 * Z.of_nat s) st)
            (seq 0 M) st.

(** The state in which [Pack] enters its loops. *)
Definition loops_entry (dst : PackedSideBlock) (g : Gen) : PackState Gen :=
  {| dst_ptr := current_data dst; blk := dst; rog := g |}.

(** The four groups of the sub-tile of strip [s] that holds column [c],
    the generator being in state [g] as [Pack] is entered. *)
Definition strip_group (s : nat) (c : Z) (g : Gen) : nat -> m128i :=
  packed_group kBits src
    (gen_advance (draws kBits (32 * (s * Z.to_nat kCells + Z.to_nat (c / 4)))) g)
    (4 * (c / 4)) (8 * Z.of_nat s).
End UnrolledLoops.

(** The sub-tiles in the order in which the two loops of [Pack] reach
    them, each named by its [(cell_start_depth, cell_start_width)]. *)
Definition iteration_order (kCells kRegisterSize : Z) : list (Z * Z) :=
  for_loop (Z.to_nat kRegisterSize) 0 kRegisterSize depth_step
    (fun cell_start_depth visited =>
       for_loop (Z.to_nat (kKernelWidth kCells)) 0 (kKernelWidth kCells) kCellWidth
         (fun cell_start_width visited =>
            visited ++ [(cell_start_depth, cell_start_width)])
         visited)
    [].

(** Position [(c1, d1)] comes before [(c2, d2)] when the depth extent is
    cut into strips of [step] depth positions taken in increasing depth
    order, and each strip into groups of [kCellWidth] columns taken in
    increasing column order. *)
Definition strip_order (step c1 d1 c2 d2 : Z) : Prop :=
  d1 / step < d2 / step
  \/ (d1 / step = d2 / step /\ c1 / kCellWidth < c2 / kCellWidth).

(** ** Inputs of the examples *)

(** A source whose byte at address [a] is [a mod 256], 16 bytes per width
    row, and an empty destination with zeroed accumulators. *)
Definition example_src : SideMap :=
  {| sm_mem := fun a => a mod 256; sm_data := 0; sm_stride := 16 |}.

Definition example_dst : PackedSideBlock :=
  {| buf := ∅; pos := 0; sums := fun _ => 0 |}.

(** A second source, equal to the first below address 1000 only, and a
    second destination in the same state as the first. *)
Definition example_src' : SideMap :=
  {| sm_mem := fun a => if a <? 1000 then a mod 256 else 7;
     sm_data := 0; sm_stride := 16 |}.

Definition example_dst' : PackedSideBlock :=
  {| buf := ∅; pos := 0; sums := fun i => i * 0 |}.

(** A generator that counts its draws and answers 254 at draw [r] (the
    offset that rounds a scaled value up) and 0 at every other draw. *)
Definition marker_generator (r : Z) : ScalarRoundingOffsetGenerator Z :=
  {| get := fun n => (if n =? r then 254 else 0, n + 1) |}.

(** A source of bytes all equal to 1. *)
Definition ones_src : SideMap :=
  {| sm_mem := fun _ => 1; sm_data := 0; sm_stride := 16 |}.

(** ** Arithmetic of lanes *)

(** Linear arithmetic with divisions and remainders by constants. *)
Ltac euclid := Z.to_euclidean_division_equations; lia.

Lemma bytes_of_u32_range d :
  Forall (fun b => 0 <= b < 256) (bytes_of_u32 d).
Proof.
  unfold bytes_of_u32.
  repeat constructor; apply Z.mod_pos_bound; lia.
Qed.

Lemma u32_recombine d :
  d mod 256 + 256 * ((d / 256) mod 256) + 65536 * ((d / 65536) mod 256)
  + 16777216 * ((d / 16777216) mod 256) = d mod 4294967296.
Proof.
  change 4294967296 with (256 * (256 * (256 * 256))).
  rewrite (Z.rem_mul_r d 256 (256 * (256 * 256))) by lia.
  rewrite (Z.rem_mul_r (d / 256) 256 (256 * 256)) by lia.
  rewrite (Z.rem_mul_r (d / 256 / 256) 256 256) by lia.
  rewrite !Z.div_div by lia.
  change (256 * 256) with 65536. change (65536 * 256) with 16777216.
  lia.
Qed.

Lemma epu32_lanes32 f w :
  (w < 4)%nat -> epu32 (lanes32 f) w = f w mod 4294967296.
Proof.
  intros Hw.
  destruct w as [|[|[|[|w]]]]; try lia;
    unfold lanes32, epu32, bytes_of_u32;
    cbn [flat_map seq app u8 nth Nat.mul Nat.add];
    apply u32_recombine.
Qed.

Lemma lanes32_ext f f' :
  (forall w, (w < 4)%nat -> f w = f' w) -> lanes32 f = lanes32 f'.
Proof.
  intros E. unfold lanes32. cbn [flat_map seq].
  rewrite (E 0%nat), (E 1%nat), (E 2%nat), (E 3%nat) by lia. reflexivity.
Qed.

Lemma storel_lookup_outside (l : list nat) (m : gmap Z Z) p (r : m128i) o :
  (forall k, In k l -> p + Z.of_nat k <> o) ->
  fold_left (fun m (k : nat) => <[p + Z.of_nat k := u8 r k]> m) l m !! o = m !! o.
Proof.
  revert m; induction l as [|k l IH]; intros m Hl; simpl; [reflexivity|].
  rewrite IH by (intros; apply Hl; now right).
  apply lookup_insert_ne. apply Hl. now left.
Qed.

Lemma storel_lookup m p r o :
  _mm_storel_epi64 m p r !! o
  = if decide (p <= o < p + 8) then Some (u8 r (Z.to_nat (o - p))) else m !! o.
Proof.
  unfold _mm_storel_epi64.
  destruct (decide (p <= o < p + 8)) as [Hin|Hout].
  - assert (E : o = p + Z.of_nat (Z.to_nat (o - p))) by lia.
    assert (Hk : (Z.to_nat (o - p) < 8)%nat) by lia.
    revert E Hk. generalize (Z.to_nat (o - p)). intros k E Hk. subst o.
    destruct k as [|[|[|[|[|[|[|[|k]]]]]]]]; try lia;
      cbn [fold_left seq];
      rewrite ?lookup_insert_ne by lia; apply lookup_insert_eq.
  - apply storel_lookup_outside.
    intros k Hk. apply in_seq in Hk. lia.
Qed.

Lemma storeu_lookup arr p r i :
  _mm_storeu_si128 arr p r i
  = if decide (p <= i < p + 4) then s32 (epu32 r (Z.to_nat (i - p))) else arr i.
Proof.
  unfold _mm_storeu_si128. cbn [fold_left seq].
  destruct (decide (p <= i < p + 4)) as [Hin|Hout].
  - assert (E : i = p + Z.of_nat (Z.to_nat (i - p))) by lia.
    assert (Hk : (Z.to_nat (i - p) < 4)%nat) by lia.
    revert E Hk. generalize (Z.to_nat (i - p)). intros k E Hk. subst i.
    destruct k as [|[|[|[|k]]]]; try lia;
      rewrite ?fn_lookup_insert_ne by lia; apply fn_lookup_insert.
  - rewrite !fn_lookup_insert_ne by lia. reflexivity.
Qed.

Lemma add_epi32_lanes a b :
  _mm_add_epi32 a b = lanes32 (fun i => (epu32 a i + epu32 b i) mod 4294967296).
Proof. reflexivity. Qed.

Lemma loadu_lanes arr p :
  _mm_loadu_si128 arr p = lanes32 (fun i => arr (p + Z.of_nat i) mod 4294967296).
Proof. reflexivity. Qed.

Lemma epu32_add_epi32 a b w :
  (w < 4)%nat ->
  epu32 (_mm_add_epi32 a b) w = (epu32 a w + epu32 b w) mod 4294967296.
Proof.
  intros Hw. rewrite add_epi32_lanes, epu32_lanes32 by assumption.
  apply Z.mod_mod. lia.
Qed.

Lemma epu32_loadu arr p w :
  (w < 4)%nat ->
  epu32 (_mm_loadu_si128 arr p) w = arr (p + Z.of_nat w) mod 4294967296.
Proof.
  intros Hw. rewrite loadu_lanes, epu32_lanes32 by assumption.
  apply Z.mod_mod. lia.
Qed.

Lemma accumulate_lane arr p r0 r1 r2 r3 w :
  (w < 4)%nat ->
  s32 (epu32 (_mm_add_epi32 (_mm_add_epi32 (_mm_add_epi32 (_mm_add_epi32
         (_mm_loadu_si128 arr p) r0) r1) r2) r3) w)
  = wrap_int32 (arr (p + Z.of_nat w)
                + (epu32 r0 w + epu32 r1 w + epu32 r2 w + epu32 r3 w)).
Proof.
  intros Hw. unfold wrap_int32. f_equal.
  rewrite !epu32_add_epi32, epu32_loadu by assumption.
  repeat (rewrite Zplus_mod_idemp_l, <- ?Z.add_assoc).
  reflexivity.
Qed.

Lemma epu32_pair_sums r w :
  (w < 4)%nat ->
  (forall k, (k < 8)%nat -> 0 <= u8 r k < 256) ->
  epu32 (pair_sums r) w = u8 r (2 * w) + u8 r (2 * w + 1).
Proof.
  intros Hw Hr.
  unfold pair_sums, _mm_madd_epi16.
  change (epu32 (lanes32 (fun i =>
            (epi16 (_mm_cvtepu8_epi16 r) (2 * i) * epi16 (_mm_set1_epi16 1) (2 * i)
             + epi16 (_mm_cvtepu8_epi16 r) (2 * i + 1)
               * epi16 (_mm_set1_epi16 1) (2 * i + 1)) mod 4294967296)) w
          = u8 r (2 * w) + u8 r (2 * w + 1)).
  rewrite epu32_lanes32 by assumption.
  assert (E1 : forall k, (k < 8)%nat -> epi16 (_mm_set1_epi16 1) k = 1).
  { intros k Hk.
    destruct k as [|[|[|[|[|[|[|[|k]]]]]]]]; try lia; reflexivity. }
  assert (E2 : forall k, (k < 8)%nat -> epi16 (_mm_cvtepu8_epi16 r) k = u8 r k).
  { intros k Hk. specialize (Hr k Hk).
    destruct k as [|[|[|[|[|[|[|[|k]]]]]]]]; try lia;
      unfold epi16, epu16, _mm_cvtepu8_epi16;
      cbn [flat_map seq app Nat.mul Nat.add];
      match goal with
      | |- context [u8 (?a :: ?l) ?n] =>
          change (u8 (a :: l) n) with (nth n (a :: l) 0)
      end; cbn [nth];
      match goal with
      | |- context [u8 (?a :: ?l) ?n] =>
          change (u8 (a :: l) n) with (nth n (a :: l) 0)
      end; cbn [nth];
      cbv zeta;
      match goal with
      | |- context [?a <? ?b] => destruct (Z.ltb_spec a b)
      end; lia. }
  assert (H0 := Hr (2 * w)%nat ltac:(lia)).
  assert (H1 := Hr (2 * w + 1)%nat ltac:(lia)).
  rewrite !E1, !E2 by lia.
  rewrite Z.mod_mod by lia. rewrite Z.mod_small; lia.
Qed.

(** ** SSERequantize *)

Section RequantizeFacts.
Context {Gen : Type} `{!ScalarRoundingOffsetGenerator Gen}.
Implicit Types (g : Gen) (r : m128i).

Lemma gen_advance_add a b g :
  gen_advance (a + b) g = gen_advance b (gen_advance a g).
Proof. revert g; induction a as [|a IH]; intros g; simpl; auto. Qed.

Lemma gen_advance_succ n g :
  gen_advance (S n) g = snd (get (gen_advance n g)).
Proof.
  replace (S n) with (n + 1)%nat by lia.
  now rewrite gen_advance_add.
Qed.

Lemma gen_offset_advance a k g :
  gen_offset (gen_advance a g) k = gen_offset g (a + k).
Proof. unfold gen_offset. now rewrite gen_advance_add. Qed.

Lemma requantize_fold_upper kBits (l : list nat) (st : m128i * Gen) :
  Forall (fun i => (i < 8)%nat) l ->
  drop 8 (fst (fold_left (requantize_step kBits) l st)) = drop 8 (fst st).
Proof.
  revert st; induction l as [|i l IH]; intros st Hl; simpl; [reflexivity|].
  inversion Hl; subst.
  rewrite IH by assumption.
  simpl. now apply drop_insert_lt.
Qed.

Lemma requantize_fold_length kBits (l : list nat) (st : m128i * Gen) :
  length (fst (fold_left (requantize_step kBits) l st)) = length (fst st).
Proof.
  revert st; induction l as [|i l IH]; intros st; simpl; [reflexivity|].
  rewrite IH. simpl. apply length_insert.
Qed.

Lemma requantized_advance kBits a k g v :
  requantized kBits (gen_advance (draws kBits a) g) k v
  = requantized kBits g (a + k) v.
Proof.
  unfold requantized, draws.
  destruct (kBits =? 8); [reflexivity|].
  now rewrite gen_offset_advance.
Qed.

Lemma draws_add kBits a b : draws kBits (a + b) = (draws kBits a + draws kBits b)%nat.
Proof. unfold draws. now destruct (kBits =? 8). Qed.

(** The effect of one call on a register given byte by byte. *)
Lemma SSERequantize_bytes kBits g x0 x1 x2 x3 x4 x5 x6 x7 hi :
  SSERequantize kBits (x0 :: x1 :: x2 :: x3 :: x4 :: x5 :: x6 :: x7 :: hi) g
  = (requantized kBits g 0 x0 :: requantized kBits g 1 x1
     :: requantized kBits g 2 x2 :: requantized kBits g 3 x3
     :: requantized kBits g 4 x4 :: requantized kBits g 5 x5
     :: requantized kBits g 6 x6 :: requantized kBits g 7 x7 :: hi,
     gen_advance (draws kBits 8) g).
Proof.
  unfold SSERequantize, requantized, draws.
  destruct (kBits =? 8); reflexivity.
Qed.
End RequantizeFacts.

(** ** The loops of Pack as folds *)

Lemma fold_left_map_seq {A} (f : A -> nat -> A) (g : nat -> nat) l a :
  fold_left f (map g l) a = fold_left (fun a x => f a (g x)) l a.
Proof. revert a; induction l as [|x l IH]; intros a; simpl; auto. Qed.

Lemma fold_left_pointwise {A B} (f f' : A -> B -> A) l a :
  (forall a b, f a b = f' a b) -> fold_left f l a = fold_left f' l a.
Proof.
  intros E. revert a; induction l as [|x l IH]; intros a; simpl; [reflexivity|].
  now rewrite E, IH.
Qed.

Lemma for_loop_fold {St : Type} (body : Z -> St -> St) step :
  0 < step ->
  forall (n fuel : nat) i bound s,
    (n <= fuel)%nat ->
    bound <= i + step * Z.of_nat n ->
    (forall k, (k < n)%nat -> i + step * Z.of_nat k < bound) ->
    for_loop fuel i bound step body s
    = fold_left (fun s k => body (i + step * Z.of_nat k) s) (seq 0 n) s.
Proof.
  intros Hstep. induction n as [|n IH]; intros fuel i bound s Hf Hb Hk.
  - destruct fuel; simpl; [reflexivity|].
    destruct (Z.ltb_spec i bound); [lia | reflexivity].
  - destruct fuel as [|fuel]; [lia|].
    simpl for_loop.
    assert (H0 := Hk 0%nat ltac:(lia)).
    destruct (Z.ltb_spec i bound); [|lia].
    rewrite (IH fuel (i + step) bound (body i s)); [| lia | lia |].
    + cbn [seq fold_left]. rewrite <- seq_shift, fold_left_map_seq.
      replace (i + step * Z.of_nat 0) with i by lia.
      apply fold_left_pointwise. intros a k.
      f_equal. lia.
    + intros k Hk'. specialize (Hk (S k) ltac:(lia)). lia.
Qed.

(** Fuel beyond the number of iterations changes nothing. *)
Lemma for_loop_enough_fuel {St : Type} (body : Z -> St -> St) step
    (n fuel fuel' : nat) i bound s :
  0 < step -> (n <= fuel)%nat -> (n <= fuel')%nat ->
  bound <= i + step * Z.of_nat n ->
  (forall k, (k < n)%nat -> i + step * Z.of_nat k < bound) ->
  for_loop fuel i bound step body s = for_loop fuel' i bound step body s.
Proof.
  intros Hstep Hf Hf' Hb Hk.
  rewrite (for_loop_fold body step Hstep n fuel) by assumption.
  rewrite (for_loop_fold body step Hstep n fuel') by assumption.
  reflexivity.
Qed.

Lemma Pack_inner_loop {St : Type} (body : Z -> St -> St) kCells s :
  for_loop (Z.to_nat (kKernelWidth kCells)) 0 (kKernelWidth kCells) kCellWidth body s
  = fold_left (fun s k => body (4 * Z.of_nat k) s) (seq 0 (Z.to_nat kCells)) s.
Proof.
  unfold kKernelWidth, kCellWidth.
  rewrite (for_loop_fold body 4 ltac:(lia) (Z.to_nat kCells)) by lia.
  apply fold_left_pointwise. intros a k. f_equal.
Qed.

Lemma Pack_outer_loop {St : Type} (body : Z -> St -> St) kRegisterSize s :
  for_loop (Z.to_nat kRegisterSize) 0 kRegisterSize depth_step body s
  = fold_left (fun s k => body (8 * Z.of_nat k) s) (seq 0 (n_strips kRegisterSize)) s.
Proof.
  unfold depth_step, n_strips.
  rewrite (for_loop_fold body 8 ltac:(lia) (Z.to_nat ((kRegisterSize + 7) / 8))).
  - apply fold_left_pointwise. intros a k. f_equal.
  - Z.to_euclidean_division_equations; lia.
  - Z.to_euclidean_division_equations; lia.
  - intros k Hk. Z.to_euclidean_division_equations; lia.
Qed.

(** ** One sub-tile: the body of the inner loop *)

Lemma interleave_lo (a b c d : m128i) :
  _mm_blend_epi16 (_mm_unpacklo_epi16 a b)
                  (_mm_shuffle_epi32 (_mm_unpacklo_epi16 c d) 0x80) 0xcc
  = [u8 a 0; u8 a 1; u8 b 0; u8 b 1; u8 c 0; u8 c 1; u8 d 0; u8 d 1;
     u8 a 4; u8 a 5; u8 b 4; u8 b 5; u8 c 4; u8 c 5; u8 d 4; u8 d 5].
Proof. reflexivity. Qed.
Lemma interleave_hi (a b c d : m128i) :
  _mm_blend_epi16 (_mm_shuffle_epi32 (_mm_unpacklo_epi16 a b) 0x31)
                  (_mm_unpacklo_epi16 c d) 0xcc
  = [u8 a 2; u8 a 3; u8 b 2; u8 b 3; u8 c 2; u8 c 3; u8 d 2; u8 d 3;
     u8 a 6; u8 a 7; u8 b 6; u8 b 7; u8 c 6; u8 c 7; u8 d 6; u8 d 7].
Proof. reflexivity. Qed.
Lemma shuffle_upper (a : m128i) :
  _mm_shuffle_epi32 a 0xee
  = [u8 a 8; u8 a 9; u8 a 10; u8 a 11; u8 a 12; u8 a 13; u8 a 14; u8 a 15;
     u8 a 8; u8 a 9; u8 a 10; u8 a 11; u8 a 12; u8 a 13; u8 a 14; u8 a 15].
Proof. reflexivity. Qed.
Lemma storel_low m p x0 x1 x2 x3 x4 x5 x6 x7 h hi :
  _mm_storel_epi64 m p (x0 :: x1 :: x2 :: x3 :: x4 :: x5 :: x6 :: x7 :: h :: hi)
  = _mm_storel_epi64 m p [x0; x1; x2; x3; x4; x5; x6; x7].
Proof. reflexivity. Qed.
Lemma pair_sums_low x0 x1 x2 x3 x4 x5 x6 x7 hi :
  _mm_madd_epi16 (_mm_cvtepu8_epi16 (x0 :: x1 :: x2 :: x3 :: x4 :: x5 :: x6 :: x7 :: hi)) (_mm_set1_epi16 1)
  = pair_sums [x0; x1; x2; x3; x4; x5; x6; x7].
Proof. reflexivity. Qed.
Lemma src_row_byte src c d w k :
  sm_mem src (data src c d + w * width_stride src + Z.of_nat k)
  = src_at src (c + w) (d + Z.of_nat k).
Proof. unfold src_at, data, width_stride. f_equal. lia. Qed.
Lemma src_row0_byte src c d k :
  sm_mem src (data src c d + Z.of_nat k) = src_at src (c + 0) (d + Z.of_nat k).
Proof. unfold src_at, data, width_stride. f_equal. lia. Qed.

Section CellFacts.
Context {Gen : Type} `{!ScalarRoundingOffsetGenerator Gen}.

Lemma pack_cell_eq kBits kCells src sw d c (st : PackState Gen) :
let G := packed_group kBits src (rog st) c d in
let p := dst_ptr st in
pack_cell kBits kCells src sw d c st =
{| dst_ptr := p + kCellSize;
   blk := {| buf := _mm_storel_epi64 (_mm_storel_epi64 (_mm_storel_epi64 (_mm_storel_epi64 (buf (blk st)) p (G 0%nat)) (p + kCellSize * kCells) (G 1%nat)) (p + 2 * kCellSize * kCells) (G 2%nat)) (p + 3 * kCellSize * kCells) (G 3%nat);
             pos := pos (blk st);
             sums := _mm_storeu_si128 (sums (blk st)) (sw + c)
                (_mm_add_epi32 (_mm_add_epi32 (_mm_add_epi32 (_mm_add_epi32 (_mm_loadu_si128 (sums (blk st)) (sw + c)) (pair_sums (G 0%nat))) (pair_sums (G 1%nat))) (pair_sums (G 2%nat))) (pair_sums (G 3%nat))) |};
   rog := gen_advance (draws kBits 32) (rog st) |}.
Proof.
intros G p. unfold pack_cell. cbv zeta.
rewrite interleave_lo, interleave_hi.
rewrite SSERequantize_bytes; cbv beta iota.
rewrite SSERequantize_bytes; cbv beta iota.
rewrite !shuffle_upper.
cbn [u8 nth _mm_loadl_epi64 map seq app repeat Z.of_nat Pos.of_succ_nat Pos.succ].
rewrite SSERequantize_bytes; cbv beta iota.
rewrite SSERequantize_bytes; cbv beta iota.
rewrite !storel_low, !pair_sums_low.
rewrite <- !gen_advance_add, <- !draws_add.
rewrite !requantized_advance.
rewrite !(src_row_byte src c d), !(src_row0_byte src c d).
reflexivity.
Qed.
End CellFacts.

Section CellEffects.
Context {Gen : Type} `{!ScalarRoundingOffsetGenerator Gen}.
Variables (kBits kCells : Z) (src : SideMap) (start_width : Z).
Implicit Types (st : PackState Gen) (d c o : Z).

Lemma cell_dst_ptr d c st :
  dst_ptr (pack_cell kBits kCells src start_width d c st) = dst_ptr st + 8.
Proof. rewrite pack_cell_eq. reflexivity. Qed.

Lemma cell_pos d c st :
  pos (blk (pack_cell kBits kCells src start_width d c st)) = pos (blk st).
Proof. rewrite pack_cell_eq. reflexivity. Qed.

Lemma cell_rog d c st :
  rog (pack_cell kBits kCells src start_width d c st)
  = gen_advance (draws kBits 32) (rog st).
Proof. rewrite pack_cell_eq. reflexivity. Qed.

Lemma u8_packed_group g c d j i :
  (i < 8)%nat ->
  u8 (packed_group kBits src g c d j) i = packed_byte kBits src g c d j i.
Proof.
  intros Hi.
  destruct i as [|[|[|[|[|[|[|[|i]]]]]]]]; try lia; reflexivity.
Qed.

Lemma cell_buf_lookup d c st o :
  let p := dst_ptr st in
  let G := packed_group kBits src (rog st) c d in
  buf (blk (pack_cell kBits kCells src start_width d c st)) !! o
  = if decide (p + 3 * kCellSize * kCells <= o < p + 3 * kCellSize * kCells + 8)
    then Some (u8 (G 3%nat) (Z.to_nat (o - (p + 3 * kCellSize * kCells))))
    else if decide (p + 2 * kCellSize * kCells <= o < p + 2 * kCellSize * kCells + 8)
    then Some (u8 (G 2%nat) (Z.to_nat (o - (p + 2 * kCellSize * kCells))))
    else if decide (p + kCellSize * kCells <= o < p + kCellSize * kCells + 8)
    then Some (u8 (G 1%nat) (Z.to_nat (o - (p + kCellSize * kCells))))
    else if decide (p <= o < p + 8)
    then Some (u8 (G 0%nat) (Z.to_nat (o - p)))
    else buf (blk st) !! o.
Proof.
  intros p G. rewrite pack_cell_eq. cbn [buf blk].
  rewrite !storel_lookup. reflexivity.
Qed.

Lemma cell_buf_written d c st (j i : nat) :
  1 <= kCells -> (j < 4)%nat -> (i < 8)%nat ->
  buf (blk (pack_cell kBits kCells src start_width d c st))
    !! (dst_ptr st + Z.of_nat j * (8 * kCells) + Z.of_nat i)
  = Some (packed_byte kBits src (rog st) c d j i).
Proof.
  intros Hc Hj Hi. rewrite cell_buf_lookup. cbv zeta.
  unfold kCellSize, kCellWidth, kCellDepth.
  destruct j as [|[|[|[|j]]]]; try lia;
    repeat case_decide; try lia;
    rewrite <- (u8_packed_group _ _ _ _ i) by assumption;
    do 2 f_equal; lia.
Qed.

Lemma cell_buf_frame d c st o :
  let p := dst_ptr st in
  ~ (p <= o < p + 8) ->
  ~ (p + 8 * kCells <= o < p + 8 * kCells + 8) ->
  ~ (p + 16 * kCells <= o < p + 16 * kCells + 8) ->
  ~ (p + 24 * kCells <= o < p + 24 * kCells + 8) ->
  buf (blk (pack_cell kBits kCells src start_width d c st)) !! o
  = buf (blk st) !! o.
Proof.
  intros p H0 H1 H2 H3. rewrite cell_buf_lookup. cbv zeta.
  unfold kCellSize, kCellWidth, kCellDepth.
  repeat case_decide; try lia. reflexivity.
Qed.

Lemma cell_sums_lookup d c st i :
  sums (blk (pack_cell kBits kCells src start_width d c st)) i
  = if decide (start_width + c <= i < start_width + c + 4)
    then wrap_int32
           (sums (blk st) i
            + cell_lane_sum (packed_group kBits src (rog st) c d)
                            (Z.to_nat (i - (start_width + c))))
    else sums (blk st) i.
Proof.
  rewrite pack_cell_eq. cbn [sums blk].
  rewrite storeu_lookup. case_decide; [|reflexivity].
  rewrite accumulate_lane by lia.
  unfold cell_lane_sum. do 2 f_equal. f_equal. lia.
Qed.
End CellEffects.

Section StripFacts.
Context {Gen : Type} `{!ScalarRoundingOffsetGenerator Gen}.
Variables (kBits kCells : Z) (src : SideMap) (start_width : Z).
Implicit Types (st : PackState Gen) (d c o : Z).

Lemma strip_cells_succ m d st :
  strip_cells kBits kCells src start_width (S m) d st
  = pack_cell kBits kCells src start_width d (4 * Z.of_nat m)
              (strip_cells kBits kCells src start_width m d st).
Proof. unfold strip_cells. rewrite seq_S, fold_left_app. reflexivity. Qed.

Lemma draws_succ_cell m g :
  gen_advance (draws kBits 32) (gen_advance (draws kBits (32 * m)) g)
  = gen_advance (draws kBits (32 * S m)) g.
Proof.
  replace (32 * S m)%nat with (32 * m + 32)%nat by lia.
  now rewrite draws_add, gen_advance_add.
Qed.

Lemma strip_cells_spec d st m :
  Z.of_nat m <= kCells ->
  let st' := strip_cells kBits kCells src start_width m d st in
  let g k := gen_advance (draws kBits (32 * k)) (rog st) in
  dst_ptr st' = dst_ptr st + 8 * Z.of_nat m
  /\ pos (blk st') = pos (blk st)
  /\ rog st' = g m
  /\ (forall k j i, (k < m)%nat -> (j < 4)%nat -> (i < 8)%nat ->
        buf (blk st') !! (dst_ptr st + 8 * Z.of_nat k
                          + Z.of_nat j * (8 * kCells) + Z.of_nat i)
        = Some (packed_byte kBits src (g k) (4 * Z.of_nat k) d j i))
  /\ (forall o, ~ (dst_ptr st <= o < dst_ptr st + 32 * kCells) ->
        buf (blk st') !! o = buf (blk st) !! o)
  /\ (forall k w, (k < m)%nat -> (w < 4)%nat ->
        sums (blk st') (start_width + 4 * Z.of_nat k + Z.of_nat w)
        = wrap_int32
            (sums (blk st) (start_width + 4 * Z.of_nat k + Z.of_nat w)
             + cell_lane_sum (packed_group kBits src (g k) (4 * Z.of_nat k) d) w))
  /\ (forall i, ~ (start_width <= i < start_width + 4 * Z.of_nat m) ->
        sums (blk st') i = sums (blk st) i).
Proof.
  intros Hm st' g. subst st'.
  induction m as [|m IH].
  - unfold strip_cells; simpl.
    repeat split; try reflexivity; try (intros; lia).
    subst g; cbv beta. unfold draws. now destruct (kBits =? 8).
  - destruct (IH ltac:(lia)) as (I1 & I2 & I3 & I4 & I5 & I6 & I7).
    rewrite strip_cells_succ.
    set (st1 := strip_cells kBits kCells src start_width m d st) in *.
    split; [rewrite cell_dst_ptr, I1; lia|].
    split; [rewrite cell_pos; exact I2|].
    split; [rewrite cell_rog, I3; apply draws_succ_cell|].
    split; [|split; [|split]].
    + intros k j i Hk Hj Hi.
      destruct (decide (k = m)) as [->|Hne].
      * replace (dst_ptr st + 8 * Z.of_nat m + Z.of_nat j * (8 * kCells) + Z.of_nat i)
          with (dst_ptr st1 + Z.of_nat j * (8 * kCells) + Z.of_nat i) by lia.
        rewrite cell_buf_written by lia. now rewrite I3.
      * rewrite cell_buf_frame, I4; try lia; try reflexivity;
          rewrite I1; destruct j as [|[|[|[|j]]]]; lia.
    + intros o Ho. rewrite cell_buf_frame, I5; try lia; try reflexivity;
        rewrite I1; lia.
    + intros k w Hk Hw. rewrite cell_sums_lookup.
      destruct (decide (k = m)) as [->|Hne].
      * case_decide; [|lia].
        rewrite I7 by lia. rewrite I3.
        do 2 f_equal. f_equal. lia.
      * case_decide; [lia|]. apply I6; lia.
    + intros i Hi. rewrite cell_sums_lookup.
      case_decide; [lia|]. apply I7. lia.
Qed.
End StripFacts.

Lemma wrap_int32_add_l x y : wrap_int32 (wrap_int32 x + y) = wrap_int32 (x + y).
Proof.
  unfold wrap_int32. f_equal. unfold s32.
  destruct (x mod 4294967296 <? 2147483648).
  - apply Zplus_mod_idemp_l.
  - replace (x mod 4294967296 - 4294967296 + y)
      with (x mod 4294967296 + y + (-1) * 4294967296) by lia.
    rewrite Z_mod_plus_full. apply Zplus_mod_idemp_l.
Qed.

Section BlockFacts.
Context {Gen : Type} `{!ScalarRoundingOffsetGenerator Gen}.
Variables (kBits kCells : Z) (src : SideMap) (start_width : Z).
Implicit Types (st : PackState Gen) (d c o : Z).

Lemma pack_strip_eq d st :
  pack_strip kBits kCells src start_width d st
  = let st' := strip_cells kBits kCells src start_width (Z.to_nat kCells) d st in
    {| dst_ptr := dst_ptr st' + 3 * kCellSize * kCells;
       blk := blk st'; rog := rog st' |}.
Proof. unfold pack_strip. rewrite Pack_inner_loop. reflexivity. Qed.

Lemma block_strips_succ M st :
  block_strips kBits kCells src start_width (S M) st
  = pack_strip kBits kCells src start_width (8 * Z.of_nat M)
               (block_strips kBits kCells src start_width M st).
Proof. unfold block_strips. rewrite seq_S, fold_left_app. reflexivity. Qed.

Lemma block_strips_spec st M :
  0 <= kCells ->
  let n := Z.to_nat kCells in
  let st' := block_strips kBits kCells src start_width M st in
  let g s k := gen_advance (draws kBits (32 * (s * n + k))) (rog st) in
  dst_ptr st' = dst_ptr st + Z.of_nat M * (32 * kCells)
  /\ pos (blk st') = pos (blk st)
  /\ rog st' = g M 0%nat
  /\ (forall s k j i, (s < M)%nat -> (k < n)%nat -> (j < 4)%nat -> (i < 8)%nat ->
        buf (blk st') !! (dst_ptr st + Z.of_nat s * (32 * kCells)
                          + 8 * Z.of_nat k + Z.of_nat j * (8 * kCells) + Z.of_nat i)
        = Some (packed_byte kBits src (g s k) (4 * Z.of_nat k) (8 * Z.of_nat s) j i))
  /\ (forall o, ~ (dst_ptr st <= o < dst_ptr st + Z.of_nat M * (32 * kCells)) ->
        buf (blk st') !! o = buf (blk st) !! o)
  /\ (forall k w, (k < n)%nat -> (w < 4)%nat ->
        sums (blk st') (start_width + 4 * Z.of_nat k + Z.of_nat w)
        = accumulated M
            (sums (blk st) (start_width + 4 * Z.of_nat k + Z.of_nat w))
            (sum_upto M (fun s =>
               cell_lane_sum
                 (packed_group kBits src (g s k) (4 * Z.of_nat k) (8 * Z.of_nat s)) w)))
  /\ (forall i, ~ (start_width <= i < start_width + 4 * kCells) ->
        sums (blk st') i = sums (blk st) i).
Proof.
  intros Hc n st' g. subst st'.
  induction M as [|M IH].
  - unfold block_strips; simpl.
    repeat split; try reflexivity; try (intros; lia).
    subst g; cbv beta. unfold draws. now destruct (kBits =? 8).
  - destruct IH as (J1 & J2 & J3 & J4 & J5 & J6 & J7).
    rewrite block_strips_succ, pack_strip_eq. cbv zeta.
    change (Z.to_nat kCells) with n.
    set (st1 := block_strips kBits kCells src start_width M st) in *.
    destruct (strip_cells_spec kBits kCells src start_width (8 * Z.of_nat M) st1 n
                ltac:(lia)) as (K1 & K2 & K3 & K4 & K5 & K6 & K7).
    cbv zeta in K1, K2, K3, K4, K5, K6, K7.
    set (st2 := strip_cells kBits kCells src start_width n (8 * Z.of_nat M) st1) in *.
    cbn [dst_ptr blk rog].
    assert (Hg : forall k, gen_advance (draws kBits (32 * k)) (rog st1) = g M k).
    { intros k. rewrite J3. subst g; cbv beta.
      rewrite <- gen_advance_add, <- draws_add. do 2 f_equal. lia. }
    split; [|split; [|split; [|split; [|split; [|split]]]]].
    + rewrite K1, J1. unfold kCellSize, kCellWidth, kCellDepth. lia.
    + now rewrite K2.
    + rewrite K3, Hg. subst g; cbv beta. do 2 f_equal. lia.
    + intros s k j i Hs Hk Hj Hi.
      destruct (decide (s = M)) as [->|Hne].
      * rewrite <- Hg, <- K4 by assumption. f_equal. lia.
      * rewrite K5, J4; try lia; try reflexivity.
        rewrite J1. nia.
    + intros o Ho. rewrite K5, J5; try reflexivity; [nia|rewrite J1; nia].
    + intros k w Hk Hw.
      rewrite K6, J6 by assumption.
      rewrite Hg. destruct M as [|M']; cbn [accumulated sum_upto].
      * f_equal; lia.
      * rewrite wrap_int32_add_l. f_equal; lia.
    + intros i Hi. rewrite K7, J7; try reflexivity; lia.
Qed.
End BlockFacts.

(** ** The packed layout *)

Lemma dst_offset_eq kCells c d :
  dst_offset kCells c d = (d / 2) * (8 * kCells) + 2 * c + d mod 2.
Proof.
  unfold dst_offset, kCellSize, kCellWidth, kCellDepth.
  change (4 * 2) with 8.
  assert (c / 4 * 8 + c mod 4 * 2 = 2 * c) by euclid.
  lia.
Qed.

Lemma dst_column_offset kCells c d :
  0 <= c < 4 * kCells -> dst_column kCells (dst_offset kCells c d) = c.
Proof.
  intros Hc. rewrite dst_offset_eq.
  unfold dst_column, kCellSize, kCellWidth, kCellDepth. change (4 * 2) with 8.
  assert (He : 0 <= d mod 2 < 2) by (apply Z.mod_pos_bound; lia).
  rewrite <- Z.add_assoc, Z.add_comm, Z_mod_plus_full.
  rewrite (Z.mod_small (2 * c + d mod 2) (8 * kCells)) by lia. euclid.
Qed.

Lemma dst_depth_offset kCells c d :
  0 <= c < 4 * kCells -> dst_depth kCells (dst_offset kCells c d) = d.
Proof.
  intros Hc. rewrite dst_offset_eq.
  unfold dst_depth, kCellSize, kCellWidth, kCellDepth. change (4 * 2) with 8.
  assert (He : 0 <= d mod 2 < 2) by (apply Z.mod_pos_bound; lia).
  rewrite <- !Z.add_assoc. rewrite (Z.add_comm (d / 2 * (8 * kCells))).
  rewrite Z_mod_plus_full, Z_div_plus_full by lia.
  rewrite (Z.mod_small (2 * c + d mod 2) (8 * kCells)) by lia.
  rewrite (Z.div_small (2 * c + d mod 2) (8 * kCells)) by lia.
  euclid.
Qed.

Lemma dst_offset_coords kCells o :
  0 < kCells ->
  dst_offset kCells (dst_column kCells o) (dst_depth kCells o) = o.
Proof.
  intros Hc. rewrite dst_offset_eq.
  unfold dst_column, dst_depth, kCellSize, kCellWidth, kCellDepth.
  change (4 * 2) with 8.
  pose proof (Z.div_mod o (8 * kCells) ltac:(lia)) as E.
  pose proof (Z.mod_pos_bound o (8 * kCells) ltac:(lia)) as B.
  set (R := o / (8 * kCells)) in *. set (r := o mod (8 * kCells)) in *.
  assert (E1 : (2 * R + r mod 2) / 2 = R) by euclid.
  assert (E2 : (2 * R + r mod 2) mod 2 = r mod 2) by euclid.
  rewrite E1, E2.
  assert (2 * (r / 2) + r mod 2 = r) by euclid.
  lia.
Qed.

(** ** Pack as a whole *)

Section PackFacts.
Context {Gen : Type} `{!ScalarRoundingOffsetGenerator Gen}.
Variables (kBits kCells kRegisterSize : Z) (src : SideMap).
Variables (dst : PackedSideBlock) (start_width : Z) (g : Gen).

Local Abbreviation st0 := (loops_entry dst g).
Local Abbreviation N := (n_strips kRegisterSize).
Local Abbreviation dst' := (fst (Pack kBits kCells kRegisterSize src dst start_width g)).
Local Abbreviation g' := (snd (Pack kBits kCells kRegisterSize src dst start_width g)).

Lemma Pack_loops_eq :
  Pack_loops kBits kCells kRegisterSize src dst start_width g
  = block_strips kBits kCells src start_width N st0.
Proof. unfold Pack_loops. rewrite Pack_outer_loop. reflexivity. Qed.

Lemma Pack_eq :
  Pack kBits kCells kRegisterSize src dst start_width g
  = (seek_forward_n_cells (Z.quot (kCells * kRegisterSize) kCellDepth)
       (blk (block_strips kBits kCells src start_width N st0)),
     rog (block_strips kBits kCells src start_width N st0)).
Proof. unfold Pack. rewrite Pack_loops_eq. reflexivity. Qed.

Lemma Pack_loops_dst_ptr :
  0 <= kCells ->
  dst_ptr (Pack_loops kBits kCells kRegisterSize src dst start_width g)
  = pos dst + depth_extent kRegisterSize * kKernelWidth kCells.
Proof.
  intros Hc. rewrite Pack_loops_eq.
  destruct (block_strips_spec kBits kCells src start_width st0 N Hc) as (J1 & _).
  rewrite J1. unfold loops_entry, current_data, depth_extent, kKernelWidth, kCellWidth.
  cbn [dst_ptr]. lia.
Qed.

Lemma block_strips_no_cells M (st : PackState Gen) :
  kCells <= 0 ->
  blk (block_strips kBits kCells src start_width M st) = blk st
  /\ rog (block_strips kBits kCells src start_width M st) = rog st.
Proof.
  intros Hc. induction M as [|M [IH1 IH2]]; [now split|].
  rewrite block_strips_succ, pack_strip_eq.
  replace (Z.to_nat kCells) with 0%nat by lia.
  cbn. now split.
Qed.

Lemma Pack_byte c d :
  0 <= c < kKernelWidth kCells -> 0 <= d < depth_extent kRegisterSize ->
  buf dst' !! (pos dst + dst_offset kCells c d)
  = Some (block_byte kBits kCells src g c d).
Proof.
  unfold block_byte, kKernelWidth, kCellWidth, depth_extent.
  intros Hc Hd.
  rewrite Pack_eq. cbn [fst seek_forward_n_cells buf].
  destruct (block_strips_spec kBits kCells src start_width st0 N ltac:(lia))
    as (_ & _ & _ & J4 & _).
  cbn [dst_ptr rog loops_entry] in J4. unfold current_data in J4.
  set (s := Z.to_nat (d / 8)). set (k := Z.to_nat (c / 4)).
  set (j := Z.to_nat ((d mod 8) / 2)).
  set (i := Z.to_nat (2 * (c mod 4) + d mod 2)).
  assert (Es : Z.of_nat s = d / 8) by (subst s; euclid).
  assert (Ek : Z.of_nat k = c / 4) by (subst k; euclid).
  assert (Ej : Z.of_nat j = (d mod 8) / 2) by (subst j; euclid).
  assert (Ei : Z.of_nat i = 2 * (c mod 4) + d mod 2) by (subst i; euclid).
  assert (Hs : (s < N)%nat) by euclid.
  assert (Hk : (k < Z.to_nat kCells)%nat) by euclid.
  assert (Hj : (j < 4)%nat) by euclid.
  assert (Hi : (i < 8)%nat) by euclid.
  clearbody s k j i.
  specialize (J4 s k j i Hs Hk Hj Hi).
  assert (Ed2 : d / 2 = 4 * (d / 8) + (d mod 8) / 2) by euclid.
  assert (Ed1 : d mod 2 = (d mod 8) mod 2) by euclid.
  replace (pos dst + dst_offset kCells c d)
    with (pos dst + Z.of_nat s * (32 * kCells) + 8 * Z.of_nat k
          + Z.of_nat j * (8 * kCells) + Z.of_nat i).
  2:{ rewrite dst_offset_eq, Ed2, Es, Ek, Ej, Ei.
      assert (8 * (c / 4) + 2 * (c mod 4) = 2 * c) by euclid. lia. }
  rewrite J4. f_equal.
  unfold packed_byte. rewrite requantized_advance.
  assert (Ei2 : Z.of_nat (i / 2) = c mod 4).
  { rewrite Nat2Z.inj_div, Ei. euclid. }
  assert (Ei1 : Z.of_nat (i mod 2) = d mod 2).
  { rewrite Nat2Z.inj_mod, Ei. euclid. }
  f_equal.
  - unfold visit_index. apply Nat2Z.inj.
    rewrite Z2Nat.id by (Z.to_euclidean_division_equations; nia).
    repeat first [rewrite Nat2Z.inj_add | rewrite Nat2Z.inj_mul].
    rewrite Es, Ek, Ej, Ei.
    rewrite Z2Nat.id by lia. change (Z.of_nat 32) with 32.
    change (Z.of_nat 8) with 8. lia.
  - f_equal.
    + rewrite Ei2, Ek. euclid.
    + rewrite Nat2Z.inj_add, Nat2Z.inj_mul, Ei1, Es, Ej.
      change (Z.of_nat 2) with 2. euclid.
Qed.

Lemma Pack_buf_frame o :
  ~ (pos dst <= o < pos dst + depth_extent kRegisterSize * kKernelWidth kCells) ->
  buf dst' !! o = buf dst !! o.
Proof.
  unfold kKernelWidth, kCellWidth, depth_extent. intros Ho.
  rewrite Pack_eq. cbn [fst seek_forward_n_cells buf].
  destruct (Z_le_gt_dec kCells 0) as [Hc|Hc].
  - now rewrite (proj1 (block_strips_no_cells N st0 Hc)).
  - destruct (block_strips_spec kBits kCells src start_width st0 N ltac:(lia))
      as (_ & _ & _ & _ & J5 & _).
    apply J5. cbn [dst_ptr loops_entry]. unfold current_data. lia.
Qed.

Lemma Pack_rog :
  g' = gen_advance (draws kBits (32 * (N * Z.to_nat kCells))) g.
Proof.
  rewrite Pack_eq. cbn [snd].
  destruct (Z_le_gt_dec kCells 0) as [Hc|Hc].
  - rewrite (proj2 (block_strips_no_cells N st0 Hc)).
    replace (Z.to_nat kCells) with 0%nat by lia.
    rewrite Nat.mul_0_r. unfold draws. now destruct (kBits =? 8).
  - destruct (block_strips_spec kBits kCells src start_width st0 N ltac:(lia))
      as (_ & _ & J3 & _).
    rewrite J3. cbn [rog loops_entry]. do 2 f_equal. lia.
Qed.

Lemma Pack_pos :
  pos dst' = pos dst + Z.quot (kCells * kRegisterSize) kCellDepth * kCellSize.
Proof.
  rewrite Pack_eq. cbn [fst seek_forward_n_cells pos].
  destruct (Z_le_gt_dec kCells 0) as [Hc|Hc].
  - now rewrite (proj1 (block_strips_no_cells N st0 Hc)).
  - destruct (block_strips_spec kBits kCells src start_width st0 N ltac:(lia))
      as (_ & J2 & _).
    now rewrite J2.
Qed.

Lemma Pack_sums_frame i :
  ~ (start_width <= i < start_width + kKernelWidth kCells) ->
  sums dst' i = sums dst i.
Proof.
  unfold kKernelWidth, kCellWidth. intros Hi.
  rewrite Pack_eq. cbn [fst seek_forward_n_cells sums].
  destruct (Z_le_gt_dec kCells 0) as [Hc|Hc].
  - now rewrite (proj1 (block_strips_no_cells N st0 Hc)).
  - destruct (block_strips_spec kBits kCells src start_width st0 N ltac:(lia))
      as (_ & _ & _ & _ & _ & _ & J7).
    now apply J7.
Qed.

Lemma Pack_sums_lanes c :
  0 <= c < kKernelWidth kCells ->
  sums dst' (start_width + c)
  = accumulated N (sums dst (start_width + c))
      (sum_upto N (fun s =>
         cell_lane_sum (strip_group kBits kCells src s c g) (Z.to_nat (c mod 4)))).
Proof.
  unfold kKernelWidth, kCellWidth. intros Hc.
  rewrite Pack_eq. cbn [fst seek_forward_n_cells sums].
  destruct (block_strips_spec kBits kCells src start_width st0 N ltac:(lia))
    as (_ & _ & _ & _ & _ & J6 & _).
  specialize (J6 (Z.to_nat (c / 4)) (Z.to_nat (c mod 4)) ltac:(euclid) ltac:(euclid)).
  cbn [blk rog loops_entry] in J6.
  replace (start_width + 4 * Z.of_nat (Z.to_nat (c / 4)) + Z.of_nat (Z.to_nat (c mod 4)))
    with (start_width + c) in J6 by euclid.
  replace (4 * Z.of_nat (Z.to_nat (c / 4))) with (4 * (c / 4)) in J6 by euclid.
  exact J6.
Qed.

Lemma Pack_buf_covered o :
  pos dst <= o < pos dst + depth_extent kRegisterSize * kKernelWidth kCells ->
  let c := dst_column kCells (o - pos dst) in
  let d := dst_depth kCells (o - pos dst) in
  0 <= c < kKernelWidth kCells /\ 0 <= d < depth_extent kRegisterSize
  /\ o = pos dst + dst_offset kCells c d.
Proof.
  intros Ho c d. unfold kKernelWidth, kCellWidth in *.
  assert (Hc : 0 < kCells).
  { destruct (Z_le_gt_dec kCells 0); [|lia].
    unfold depth_extent in Ho. nia. }
  assert (Hd : 0 <= depth_extent kRegisterSize) by (unfold depth_extent; lia).
  subst c d. rewrite dst_offset_coords by assumption.
  unfold dst_column, dst_depth, kCellSize, kCellWidth, kCellDepth.
  change (4 * 2) with 8.
  set (rel := o - pos dst) in *.
  pose proof (Z.div_mod rel (8 * kCells) ltac:(lia)) as E.
  pose proof (Z.mod_pos_bound rel (8 * kCells) ltac:(lia)) as B.
  assert (HR : 0 <= rel / (8 * kCells)) by (apply Z.div_pos; lia).
  assert (HR' : rel / (8 * kCells) < depth_extent kRegisterSize / 2).
  { apply Z.div_lt_upper_bound; [lia|].
    unfold depth_extent in *.
    replace (8 * Z.of_nat (n_strips kRegisterSize) / 2)
      with (4 * Z.of_nat (n_strips kRegisterSize)) by euclid.
    nia. }
  set (R := rel / (8 * kCells)) in *. set (r := rel mod (8 * kCells)) in *.
  assert (depth_extent kRegisterSize mod 2 = 0).
  { unfold depth_extent. euclid. }
  split; [euclid|]. split; [euclid|]. lia.
Qed.
End PackFacts.

(** ** Sums of columns *)

Lemma sum_upto_ext n f f' :
  (forall k, (k < n)%nat -> f k = f' k) -> sum_upto n f = sum_upto n f'.
Proof.
  induction n as [|n IH]; intros E; simpl; [reflexivity|].
  rewrite IH, (E n) by (intros; try apply E; lia). reflexivity.
Qed.

Lemma sum_upto_add a b f :
  sum_upto (a + b) f = sum_upto a f + sum_upto b (fun x => f (a + x)%nat).
Proof.
  induction b as [|b IH].
  - rewrite Nat.add_0_r. simpl. lia.
  - replace (a + S b)%nat with (S (a + b)) by lia. simpl. rewrite IH. lia.
Qed.

Lemma sum_upto_strips N f :
  sum_upto (8 * N) f = sum_upto N (fun s => sum_upto 8 (fun x => f (8 * s + x)%nat)).
Proof.
  induction N as [|N IH]; [reflexivity|].
  replace (8 * S N)%nat with (8 * N + 8)%nat by lia.
  rewrite sum_upto_add, IH. reflexivity.
Qed.

Lemma sum_upto_nonneg n f :
  (forall k, (k < n)%nat -> 0 <= f k) -> 0 <= sum_upto n f.
Proof.
  induction n as [|n IH]; intros E; simpl; [lia|].
  specialize (IH ltac:(intros; apply E; lia)). specialize (E n ltac:(lia)). lia.
Qed.

Section SumFacts.
Context {Gen : Type} `{!ScalarRoundingOffsetGenerator Gen}.
Variables (kBits kCells : Z) (src : SideMap) (g : Gen).

Lemma requantized_range k v :
  0 <= v < 256 -> 0 <= requantized kBits g k v < 256.
Proof.
  intros Hv. unfold requantized, requantize_value.
  destruct (kBits =? 8); [assumption|].
  apply Z.mod_pos_bound. lia.
Qed.

Lemma packed_byte_in_block (s k j i : nat) :
  0 <= kCells -> (j < 4)%nat -> (i < 8)%nat ->
  packed_byte kBits src
    (gen_advance (draws kBits (32 * (s * Z.to_nat kCells + k))) g)
    (4 * Z.of_nat k) (8 * Z.of_nat s) j i
  = block_byte kBits kCells src g
      (4 * Z.of_nat k + Z.of_nat (i / 2))
      (8 * Z.of_nat s + Z.of_nat (2 * j + i mod 2)).
Proof.
  intros Hc Hj Hi. unfold packed_byte, block_byte.
  rewrite requantized_advance. f_equal.
  pose proof (Nat.div_mod_eq i 2) as E.
  pose proof (Nat.mod_upper_bound i 2 ltac:(lia)) as B.
  set (a := (i / 2)%nat) in *. set (e := (i mod 2)%nat) in *.
  clearbody a e.
  unfold visit_index. apply Nat2Z.inj.
  assert (E1 : (8 * Z.of_nat s + Z.of_nat (2 * j + e)) / 8 = Z.of_nat s) by euclid.
  assert (E2 : (4 * Z.of_nat k + Z.of_nat a) / 4 = Z.of_nat k) by euclid.
  assert (E3 : ((8 * Z.of_nat s + Z.of_nat (2 * j + e)) mod 8) / 2 = Z.of_nat j)
    by euclid.
  assert (E4 : (4 * Z.of_nat k + Z.of_nat a) mod 4 = Z.of_nat a) by euclid.
  assert (E5 : (8 * Z.of_nat s + Z.of_nat (2 * j + e)) mod 2 = Z.of_nat e) by euclid.
  rewrite E1, E2, E3, E4, E5.
  rewrite Z2Nat.id by nia.
  repeat first [rewrite Nat2Z.inj_add | rewrite Nat2Z.inj_mul].
  rewrite Z2Nat.id by lia.
  change (Z.of_nat 32) with 32. change (Z.of_nat 8) with 8. lia.
Qed.
End SumFacts.

Lemma cell_lane_sum_bytes (G : nat -> m128i) (w : nat) :
  (w < 4)%nat ->
  (forall j i, (j < 4)%nat -> (i < 8)%nat -> 0 <= u8 (G j) i < 256) ->
  cell_lane_sum G w
  = u8 (G 0%nat) (2 * w) + u8 (G 0%nat) (2 * w + 1)
    + (u8 (G 1%nat) (2 * w) + u8 (G 1%nat) (2 * w + 1))
    + (u8 (G 2%nat) (2 * w) + u8 (G 2%nat) (2 * w + 1))
    + (u8 (G 3%nat) (2 * w) + u8 (G 3%nat) (2 * w + 1)).
Proof.
  intros Hw HG. unfold cell_lane_sum.
  rewrite !epu32_pair_sums by (try assumption; intros; apply HG; lia).
  reflexivity.
Qed.

Section ColumnSums.
Context {Gen : Type} `{!ScalarRoundingOffsetGenerator Gen}.
Variables (kBits kCells kRegisterSize : Z) (src : SideMap).
Variables (dst : PackedSideBlock) (start_width : Z) (g : Gen).

Hypothesis src_bytes : forall c d,
  0 <= c < kKernelWidth kCells -> 0 <= d < depth_extent kRegisterSize ->
  0 <= src_at src c d < 256.

Local Abbreviation G := (fun s c => strip_group kBits kCells src s c g).

Lemma group_byte_in_block s c j i :
  0 <= c < kKernelWidth kCells -> (j < 4)%nat -> (i < 8)%nat ->
  u8 (G s c j) i
  = block_byte kBits kCells src g
      (4 * (c / 4) + Z.of_nat (i / 2)) (Z.of_nat (8 * s + 2 * j + i mod 2)).
Proof.
  unfold kKernelWidth, kCellWidth. intros Hc Hj Hi. unfold strip_group.
  rewrite u8_packed_group by assumption.
  replace (4 * (c / 4)) with (4 * Z.of_nat (Z.to_nat (c / 4))) by euclid.
  rewrite packed_byte_in_block by (assumption || lia).
  f_equal. lia.
Qed.

Lemma block_byte_range c d :
  0 <= c < kKernelWidth kCells -> 0 <= d < depth_extent kRegisterSize ->
  0 <= block_byte kBits kCells src g c d < 256.
Proof. intros Hc Hd. apply requantized_range. now apply src_bytes. Qed.

Lemma strip_lane_sum s c :
  (s < n_strips kRegisterSize)%nat -> 0 <= c < kKernelWidth kCells ->
  cell_lane_sum (G s c) (Z.to_nat (c mod 4))
  = sum_upto 8 (fun x => block_byte kBits kCells src g c (Z.of_nat (8 * s + x))).
Proof.
  intros Hs Hc.
  assert (Hc' : 0 <= c < 4 * kCells) by exact Hc.
  set (w := Z.to_nat (c mod 4)).
  assert (Hw : (w < 4)%nat) by (subst w; euclid).
  assert (Ew : 4 * (c / 4) + Z.of_nat w = c) by (subst w; euclid).
  clearbody w.
  rewrite cell_lane_sum_bytes; [|assumption|].
  - rewrite !group_byte_in_block by (assumption || lia).
    replace ((2 * w) / 2)%nat with w by (apply Nat.div_unique with 0%nat; lia).
    replace ((2 * w + 1) / 2)%nat with w by (apply Nat.div_unique with 1%nat; lia).
    replace ((2 * w) mod 2)%nat with 0%nat by (apply Nat.mod_unique with w; lia).
    replace ((2 * w + 1) mod 2)%nat with 1%nat by (apply Nat.mod_unique with w; lia).
    rewrite Ew. cbn [sum_upto].
    replace (8 * s + 2 * 0 + 0)%nat with (8 * s + 0)%nat by lia.
    replace (8 * s + 2 * 0 + 1)%nat with (8 * s + 1)%nat by lia.
    replace (8 * s + 2 * 1 + 0)%nat with (8 * s + 2)%nat by lia.
    replace (8 * s + 2 * 1 + 1)%nat with (8 * s + 3)%nat by lia.
    replace (8 * s + 2 * 2 + 0)%nat with (8 * s + 4)%nat by lia.
    replace (8 * s + 2 * 2 + 1)%nat with (8 * s + 5)%nat by lia.
    replace (8 * s + 2 * 3 + 0)%nat with (8 * s + 6)%nat by lia.
    replace (8 * s + 2 * 3 + 1)%nat with (8 * s + 7)%nat by lia.
    lia.
  - intros j i Hj Hi. rewrite group_byte_in_block by assumption.
    apply block_byte_range.
    + unfold kKernelWidth, kCellWidth. 
      pose proof (Nat.div_mod_eq i 2). pose proof (Nat.mod_upper_bound i 2 ltac:(lia)).
      euclid.
    + unfold depth_extent.
      pose proof (Nat.mod_upper_bound i 2 ltac:(lia)). lia.
Qed.
End ColumnSums.

(** ** Requantization: identity, value and footprint *)

(** C5: when the bit depth is 8, requantization is the identity: a register
    comes back byte for byte, every byte stays what it was, and neither one
    call nor a whole [Pack] draws from the generator, whose state is
    unchanged. *)
Theorem requantize_identity_at_full_depth
    {Gen : Type} `{!ScalarRoundingOffsetGenerator Gen}
    (r : m128i) (g : Gen) (k : nat) (v : Z)
    (kCells kRegisterSize : Z) (src : SideMap) (dst : PackedSideBlock)
    (start_width : Z) :
  SSERequantize 8 r g = (r, g)
  /\ requantized 8 g k v = v
  /\ snd (Pack 8 kCells kRegisterSize src dst start_width g) = g.
Proof.
  split; [reflexivity|]. split; [reflexivity|].
  rewrite Pack_rog. reflexivity.
Qed.

(** The arithmetic of one loop iteration of [SSERequantize]: below bit
    depth 8 nothing wraps, and the stored byte is the truncated quotient. *)
Lemma requantize_value_quotient (b v off : Z) :
  1 <= b < 8 -> 0 <= v <= 255 -> 0 <= off <= 254 ->
  kMaxVal b = 2 ^ b - 1
  /\ v * kMaxVal b + off < 65536
  /\ requantize_value b v off = Z.quot (v * (2 ^ b - 1) + off) 255
  /\ 0 <= requantize_value b v off <= 2 ^ b - 1.
Proof.
  intros Hb Hv Hoff.
  assert (Hm : kMaxVal b = 2 ^ b - 1 /\ 1 <= 2 ^ b - 1 <= 127).
  { assert (Hcases : b = 1 \/ b = 2 \/ b = 3 \/ b = 4 \/ b = 5 \/ b = 6 \/ b = 7)
      by lia.
    destruct Hcases as [->|[->|[->|[->|[->|[->| ->]]]]]];
      (split; [reflexivity | cbn; lia]). }
  destruct Hm as [Hm Hr].
  unfold requantize_value. rewrite Hm.
  set (m := 2 ^ b - 1) in *.
  assert (Hs : 0 <= v * m <= 255 * m) by nia.
  rewrite (Z.mod_small (v * m) 65536) by lia.
  rewrite (Z.mod_small off 256) by lia.
  rewrite Z.quot_div_nonneg by lia.
  assert (Hq : 0 <= (v * m + off) / 255 <= m).
  { split; [apply Z.div_pos; lia|].
    apply Z.lt_succ_r. apply Z.div_lt_upper_bound; lia. }
  rewrite Z.mod_small by lia.
  repeat split; lia.
Qed.

(** C6: for a bit depth [b] below 8, [SSERequantize] replaces each of the
    eight low bytes [v] of the register, the [i]-th with the [i]-th offset
    drawn from the generator: when [v] is a byte and that offset lies in
    [0,254], [kMaxVal] is [2^b - 1], the 16-bit [scaled] and its sum with
    the offset do not wrap, the byte of the result is the truncated quotient
    [(v * (2^b - 1) + offset) / 255], and it lies in [0, 2^b - 1]. *)
Theorem SSERequantize_quotient_in_range
    {Gen : Type} `{!ScalarRoundingOffsetGenerator Gen}
    (b : Z) (r : m128i) (g : Gen) (i : nat) :
  1 <= b < 8 -> (8 <= length r)%nat -> (i < 8)%nat ->
  0 <= u8 r i <= 255 -> 0 <= gen_offset g i <= 254 ->
  kMaxVal b = 2 ^ b - 1
  /\ u8 r i * kMaxVal b + gen_offset g i < 65536
  /\ u8 (fst (SSERequantize b r g)) i
     = Z.quot (u8 r i * (2 ^ b - 1) + gen_offset g i) 255
  /\ 0 <= u8 (fst (SSERequantize b r g)) i <= 2 ^ b - 1.
Proof.
  intros Hb Hlen Hi Hv Hoff.
  destruct (requantize_value_quotient b (u8 r i) (gen_offset g i) Hb Hv Hoff)
    as (Hm & Hw & Hq & Hr).
  assert (E : u8 (fst (SSERequantize b r g)) i
              = requantize_value b (u8 r i) (gen_offset g i)).
  { destruct r as [|x0 [|x1 [|x2 [|x3 [|x4 [|x5 [|x6 [|x7 hi]]]]]]]];
      simpl in Hlen; try lia.
    rewrite SSERequantize_bytes. unfold requantized.
    replace (b =? 8) with false by (symmetry; apply Z.eqb_neq; lia).
    do 8 (destruct i as [|i]; [reflexivity|]). simpl in Hi. lia. }
  rewrite E. repeat split; try assumption; lia.
Qed.

Lemma SSERequantize_quotient_in_range_witness :
  u8 (fst (@SSERequantize Z counter_generator 4 (repeat 200 16) 250)) 3
  = Z.quot (200 * (2 ^ 4 - 1) + 253) 255
  /\ 0 <= u8 (fst (@SSERequantize Z counter_generator 4 (repeat 200 16) 250)) 3
     <= 2 ^ 4 - 1.
Proof.
  destruct (@SSERequantize_quotient_in_range Z counter_generator
              4 (repeat 200 16) 250 3)
    as (_ & _ & E & R);
    [lia | simpl; lia | lia | vm_compute; split; discriminate
    | vm_compute; split; discriminate |].
  split; [exact E | exact R].
Defined.

(** At bit depth 4 the byte 255 comes out as 15 whatever the offset. *)
Example requantize_saturates (off : Z) :
  0 <= off <= 254 -> requantize_value 4 255 off = 15.
Proof.
  intros Hoff. unfold requantize_value.
  change (kMaxVal 4) with 15. change (255 * 15 mod 65536) with 3825.
  rewrite (Z.mod_small off 256) by lia.
  rewrite Z.quot_div_nonneg by lia.
  assert (E : (3825 + off) / 255 = 15) by euclid.
  rewrite E. reflexivity.
Qed.

(** C10: [SSERequantize] leaves bytes 8 to 15 of the register as they
    were, whatever the register and the bit depth; the register keeps its
    size. *)
Theorem SSERequantize_upper_bytes_unchanged
    {Gen : Type} `{!ScalarRoundingOffsetGenerator Gen}
    (kBits : Z) (r : m128i) (g : Gen) :
  drop 8 (fst (SSERequantize kBits r g)) = drop 8 r
  /\ length (fst (SSERequantize kBits r g)) = length r.
Proof.
  unfold SSERequantize. destruct (kBits =? 8); [now split|].
  split.
  - rewrite requantize_fold_upper; [reflexivity|].
    apply Forall_forall. intros i Hi. apply in_seq in Hi. lia.
  - now rewrite requantize_fold_length.
Qed.

(** ** The accumulators *)

(** C9: a [Pack] call leaves every accumulator entry outside
    [start_width, start_width + kKernelWidth) as it was. *)
Theorem Pack_sums_outside_columns_unchanged
    {Gen : Type} `{!ScalarRoundingOffsetGenerator Gen}
    (kBits kCells kRegisterSize : Z) (src : SideMap) (dst : PackedSideBlock)
    (start_width : Z) (g : Gen) (i : Z) :
  ~ (start_width <= i < start_width + kKernelWidth kCells) ->
  sums (fst (Pack kBits kCells kRegisterSize src dst start_width g)) i
  = sums dst i.
Proof. apply Pack_sums_frame. Qed.

Lemma Pack_sums_outside_columns_unchanged_witness :
  sums (fst (@Pack Z counter_generator 4 2 16 example_src example_dst 3 0)) 11
  = sums example_dst 11.
Proof.
  apply (@Pack_sums_outside_columns_unchanged Z counter_generator
           4 2 16 example_src example_dst 3 0 11).
  unfold kKernelWidth, kCellWidth. lia.
Defined.

(** C1: for every column [c] of the block, the accumulator entry of the
    column ends as its prior value plus the sum of the bytes written to the
    destination for that column, a non-negative amount, in wrapping 32-bit
    arithmetic.  The source holds bytes. *)
Theorem Pack_accumulates_column_sums
    {Gen : Type} `{!ScalarRoundingOffsetGenerator Gen}
    (kBits kCells kRegisterSize : Z) (src : SideMap) (dst : PackedSideBlock)
    (start_width : Z) (g : Gen) (c : Z) :
  0 < kRegisterSize ->
  0 <= c < kKernelWidth kCells ->
  (forall c d, 0 <= c < kKernelWidth kCells ->
               0 <= d < depth_extent kRegisterSize ->
               0 <= src_at src c d < 256) ->
  let dst' := fst (Pack kBits kCells kRegisterSize src dst start_width g) in
  let added :=
    column_sum (buf dst') (pos dst) kCells c (Z.to_nat (depth_extent kRegisterSize)) in
  sums dst' (start_width + c) = wrap_int32 (sums dst (start_width + c) + added)
  /\ 0 <= added.
Proof.
  intros Hr Hc Hsrc dst' added.
  assert (Ea : added
               = sum_upto (8 * n_strips kRegisterSize)
                   (fun d => block_byte kBits kCells src g c (Z.of_nat d))).
  { subst added. unfold column_sum.
    replace (Z.to_nat (depth_extent kRegisterSize))
      with (8 * n_strips kRegisterSize)%nat by (unfold depth_extent; lia).
    apply sum_upto_ext. intros d Hd. subst dst'.
    rewrite Pack_byte; [reflexivity | assumption | unfold depth_extent; lia]. }
  split.
  - subst dst'. rewrite Pack_sums_lanes by assumption.
    rewrite Ea, sum_upto_strips.
    destruct (n_strips kRegisterSize) as [|N'] eqn:EN.
    { unfold n_strips in EN. exfalso. euclid. }
    rewrite <- EN. cbn [accumulated]. rewrite EN at 1. cbn [accumulated].
    do 2 f_equal. apply sum_upto_ext. intros s Hs.
    apply (strip_lane_sum kBits kCells kRegisterSize src g Hsrc); assumption.
  - rewrite Ea. apply sum_upto_nonneg. intros d Hd.
    apply (block_byte_range kBits kCells kRegisterSize src g Hsrc);
      [assumption|]. unfold depth_extent. lia.
Qed.

Lemma Pack_accumulates_column_sums_witness :
  let dst' := fst (@Pack Z counter_generator 4 2 16 example_src example_dst 3 0) in
  sums dst' (3 + 5)
  = wrap_int32 (sums example_dst (3 + 5)
                + column_sum (buf dst') (pos example_dst) 2 5
                             (Z.to_nat (depth_extent 16))).
Proof.
  apply (@Pack_accumulates_column_sums Z counter_generator
           4 2 16 example_src example_dst 3 0 5).
  - lia.
  - unfold kKernelWidth, kCellWidth. lia.
  - intros c d _ _. unfold src_at, example_src; cbn [sm_mem].
    apply Z.mod_pos_bound. lia.
Defined.

(** ** The layout and the order of the draws *)

Lemma dst_offset_range kCells kRegisterSize c d :
  0 <= c < kKernelWidth kCells -> 0 <= d < depth_extent kRegisterSize ->
  0 <= dst_offset kCells c d < depth_extent kRegisterSize * kKernelWidth kCells.
Proof.
  unfold kKernelWidth, kCellWidth, depth_extent. intros Hc Hd.
  rewrite dst_offset_eq.
  set (N := Z.of_nat (n_strips kRegisterSize)) in *.
  assert (H2 : 0 <= d / 2 < 4 * N) by euclid.
  assert (He : 0 <= d mod 2 < 2) by euclid.
  nia.
Qed.

(** C2: at bit depth 8 the bytes [Pack] wrote are the source bytes moved
    to the width-major 4x2 cell layout: the byte of column [c] and depth
    [d] is read back unchanged at [dst_offset c d], and [dst_offset] is a
    bijection between the positions of the block and the offsets written,
    with [dst_column] and [dst_depth] as its inverse. *)
Theorem Pack_layout_round_trip
    {Gen : Type} `{!ScalarRoundingOffsetGenerator Gen}
    (kCells kRegisterSize : Z) (src : SideMap) (dst : PackedSideBlock)
    (start_width : Z) (g : Gen) (c d o : Z) :
  let dst' := fst (Pack 8 kCells kRegisterSize src dst start_width g) in
  let size := depth_extent kRegisterSize * kKernelWidth kCells in
  0 <= c < kKernelWidth kCells -> 0 <= d < depth_extent kRegisterSize ->
  0 <= o < size ->
  (buf dst' !! (pos dst + dst_offset kCells c d) = Some (src_at src c d)
   /\ 0 <= dst_offset kCells c d < size
   /\ dst_column kCells (dst_offset kCells c d) = c
   /\ dst_depth kCells (dst_offset kCells c d) = d)
  /\ (0 <= dst_column kCells o < kKernelWidth kCells
      /\ 0 <= dst_depth kCells o < depth_extent kRegisterSize
      /\ dst_offset kCells (dst_column kCells o) (dst_depth kCells o) = o).
Proof.
  intros dst' size Hc Hd Ho. split.
  - split; [|split; [|split]].
    + subst dst'. rewrite Pack_byte by assumption. reflexivity.
    + now apply dst_offset_range.
    + now apply dst_column_offset.
    + now apply dst_depth_offset.
  - destruct (Pack_buf_covered kCells kRegisterSize dst (pos dst + o))
      as (H1 & H2 & H3); [subst size; lia|].
    replace (pos dst + o - pos dst) with o in * by lia.
    repeat split; try lia.
Qed.

Lemma Pack_layout_round_trip_witness :
  buf (fst (@Pack Z counter_generator 8 2 16 example_src example_dst 0 0))
    !! (pos example_dst + dst_offset 2 5 11)
  = Some (src_at example_src 5 11)
  /\ dst_offset 2 (dst_column 2 77) (dst_depth 2 77) = 77.
Proof.
  destruct (@Pack_layout_round_trip Z counter_generator
              2 16 example_src example_dst 0 0 5 11 77)
    as ((E & _) & (_ & _ & R)).
  - unfold kKernelWidth, kCellWidth. lia.
  - vm_compute. split; [discriminate | reflexivity].
  - vm_compute. split; [discriminate | reflexivity].
  - split; [exact E | exact R].
Defined.

(** The first row of cells and the accumulators of a block of one cell
    packed at bit depth 8: columns 0 to 3 of [example_src] hold the bytes
    [16 c + d]. *)
Example Pack_full_depth_example :
  let dst' := fst (@Pack unit nearest_generator 8 1 16 example_src example_dst 0 tt) in
  map (fun k : nat => buf dst' !! Z.of_nat k) (seq 0 16)
  = map Some [0; 1; 16; 17; 32; 33; 48; 49; 2; 3; 18; 19; 34; 35; 50; 51]
  /\ map (sums dst') [0; 1; 2; 3; 4] = [120; 376; 632; 888; 0]
  /\ pos dst' = 64.
Proof. vm_compute. repeat split. Qed.

Section DrawOrder.
Context {Gen : Type} `{!ScalarRoundingOffsetGenerator Gen}.
Variables (kBits kCells kRegisterSize : Z) (src : SideMap).
Variables (dst : PackedSideBlock) (start_width : Z) (g : Gen).

Lemma Pack_group_byte (s k j i : nat) :
  (s < n_strips kRegisterSize)%nat -> (k < Z.to_nat kCells)%nat ->
  (j < 4)%nat -> (i < 8)%nat ->
  buf (fst (Pack kBits kCells kRegisterSize src dst start_width g))
    !! (pos dst + Z.of_nat s * (32 * kCells) + 8 * Z.of_nat k
        + Z.of_nat j * (8 * kCells) + Z.of_nat i)
  = Some (requantized kBits g (32 * (s * Z.to_nat kCells + k) + 8 * j + i)
            (src_at src (4 * Z.of_nat k + Z.of_nat (i / 2))
                        (8 * Z.of_nat s + Z.of_nat (2 * j + i mod 2)))).
Proof.
  intros Hs Hk Hj Hi.
  rewrite Pack_eq. cbn [fst seek_forward_n_cells buf].
  destruct (block_strips_spec kBits kCells src start_width
              {| dst_ptr := current_data dst; blk := dst; rog := g |}
              (n_strips kRegisterSize) ltac:(lia))
    as (_ & _ & _ & J4 & _).
  cbn [dst_ptr rog] in J4. unfold current_data in J4.
  rewrite J4 by assumption. f_equal.
  unfold packed_byte. rewrite requantized_advance. f_equal. lia.
Qed.
End DrawOrder.

Lemma draw_rank_injective (n s k j i s' k' j' i' : nat) :
  (k < n)%nat -> (j < 4)%nat -> (i < 8)%nat ->
  (k' < n)%nat -> (j' < 4)%nat -> (i' < 8)%nat ->
  (32 * (s * n + k) + 8 * j + i = 32 * (s' * n + k') + 8 * j' + i')%nat ->
  s = s' /\ k = k' /\ j = j' /\ i = i'.
Proof.
  intros Hk Hj Hi Hk' Hj' Hi' E.
  assert (E1 : (s * n + k = s' * n + k')%nat) by lia.
  assert (E2 : s = s') by nia.
  subst s'. repeat split; lia.
Qed.

(** C3: below bit depth 8, [Pack] draws one offset per byte it writes, in
    the order of the visit.  The generator ends advanced by the number of
    bytes written, 32 per sub-tile; in the sub-tile of strip [s] and column
    group [k], the byte at position [i] of the [j]-th stored 8-byte group
    is the source byte requantized once, with the offset of rank
    [32 (s n + k) + 8 j + i]: group after group as they are stored (the
    two halves of depths 0..3, then the two halves of depths 4..7), left to
    right inside a group; and distinct bytes have distinct ranks. *)
Theorem Pack_draws_one_offset_per_byte_in_order
    {Gen : Type} `{!ScalarRoundingOffsetGenerator Gen}
    (kBits kCells kRegisterSize : Z) (src : SideMap) (dst : PackedSideBlock)
    (start_width : Z) (g : Gen) :
  kBits <> 8 ->
  let n := Z.to_nat kCells in
  let N := n_strips kRegisterSize in
  let res := Pack kBits kCells kRegisterSize src dst start_width g in
  snd res = gen_advance (32 * (N * n)) g
  /\ (forall s k j i : nat,
        (s < N)%nat -> (k < n)%nat -> (j < 4)%nat -> (i < 8)%nat ->
        buf (fst res) !! (pos dst + Z.of_nat s * (32 * kCells) + 8 * Z.of_nat k
                          + Z.of_nat j * (8 * kCells) + Z.of_nat i)
        = Some (requantize_value kBits
                  (src_at src (4 * Z.of_nat k + Z.of_nat (i / 2))
                              (8 * Z.of_nat s + Z.of_nat (2 * j + i mod 2)))
                  (gen_offset g (32 * (s * n + k) + 8 * j + i)))
        /\ (32 * (s * n + k) + 8 * j + i < 32 * (N * n))%nat)
  /\ (forall s k j i s' k' j' i' : nat,
        (k < n)%nat -> (j < 4)%nat -> (i < 8)%nat ->
        (k' < n)%nat -> (j' < 4)%nat -> (i' < 8)%nat ->
        (32 * (s * n + k) + 8 * j + i = 32 * (s' * n + k') + 8 * j' + i')%nat ->
        s = s' /\ k = k' /\ j = j' /\ i = i').
Proof.
  intros Hb n N res.
  assert (Eb : (kBits =? 8) = false) by now apply Z.eqb_neq.
  split; [|split].
  - subst res. rewrite Pack_rog. unfold draws. rewrite Eb. reflexivity.
  - intros s k j i Hs Hk Hj Hi. split.
    + subst res. rewrite Pack_group_byte by assumption.
      unfold requantized. rewrite Eb. reflexivity.
    + nia.
  - apply draw_rank_injective.
Qed.

Lemma Pack_draws_one_offset_per_byte_in_order_witness :
  let res := @Pack Z counter_generator 4 2 16 example_src example_dst 3 0 in
  snd res = @gen_advance Z counter_generator (32 * (2 * 2)) 0
  /\ buf (fst res) !! (0 + 1 * (32 * 2) + 8 * 1 + 2 * (8 * 2) + 5)
     = Some (@requantize_value 4 (src_at example_src 6 13)
               (@gen_offset Z counter_generator 0 117)).
Proof.
  destruct (@Pack_draws_one_offset_per_byte_in_order Z counter_generator
              4 2 16 example_src example_dst 3 0) as (E & B & _).
  - discriminate.
  - split; [exact E|].
    exact (proj1 (B 1%nat 1%nat 2%nat 5%nat ltac:(vm_compute; lia)
                    ltac:(vm_compute; lia) ltac:(lia) ltac:(lia))).
Defined.

(** ** The cursor *)

Lemma size_extended_by_interval (m m' : gmap Z Z) (p : Z) (L : nat) :
  (forall o, p <= o < p + Z.of_nat L -> is_Some (m' !! o) /\ m !! o = None) ->
  (forall o, ~ (p <= o < p + Z.of_nat L) -> m' !! o = m !! o) ->
  size m' = (size m + L)%nat.
Proof.
  revert m'. induction L as [|L IH]; intros m' Hin Hout.
  - replace m' with m; [lia|].
    apply map_eq. intros o. symmetry. apply Hout. lia.
  - destruct (Hin (p + Z.of_nat L) ltac:(lia)) as [Hsome Hnone].
    pose proof (map_size_ne_0_lookup_2 m' _ Hsome) as Hpos.
    pose proof (map_size_delete_Some (p + Z.of_nat L) m' Hsome) as Hdel.
    rewrite (IH (delete (p + Z.of_nat L) m')) in Hdel.
    + lia.
    + intros o Ho. rewrite lookup_delete_ne by lia. apply Hin. lia.
    + intros o Ho. destruct (decide (o = p + Z.of_nat L)) as [->|Hne].
      * now rewrite lookup_delete_eq.
      * rewrite lookup_delete_ne by lia. apply Hout. lia.
Qed.

Lemma depth_extent_exact kRegisterSize :
  0 <= kRegisterSize -> kRegisterSize mod depth_step = 0 ->
  depth_extent kRegisterSize = kRegisterSize.
Proof. unfold depth_extent, n_strips, depth_step. intros H0 H8. euclid. Qed.

(** C7: for a block whose depth is a whole number of strips, [Pack] ends
    by moving the cursor forward by [kCells * kRegisterSize / kCellDepth]
    cells of [kCellSize] bytes, to where its running [dst_ptr] has come,
    and the bytes it wrote are exactly those between the old and the new
    cursor: on a destination holding nothing from its cursor on, the
    number of stored bytes grows by the advance. *)
Theorem Pack_advances_cursor_over_written_bytes
    {Gen : Type} `{!ScalarRoundingOffsetGenerator Gen}
    (kBits kCells kRegisterSize : Z) (src : SideMap) (dst : PackedSideBlock)
    (start_width : Z) (g : Gen) :
  0 <= kCells -> 0 <= kRegisterSize -> kRegisterSize mod depth_step = 0 ->
  (forall o, pos dst <= o -> buf dst !! o = None) ->
  let dst' := fst (Pack kBits kCells kRegisterSize src dst start_width g) in
  let n_cells := Z.quot (kCells * kRegisterSize) kCellDepth in
  pos dst' = pos dst + n_cells * kCellSize
  /\ dst_ptr (Pack_loops kBits kCells kRegisterSize src dst start_width g) = pos dst'
  /\ (forall o, pos dst <= o < pos dst' -> is_Some (buf dst' !! o))
  /\ (forall o, ~ (pos dst <= o < pos dst') -> buf dst' !! o = buf dst !! o)
  /\ Z.of_nat (size (buf dst')) = Z.of_nat (size (buf dst)) + n_cells * kCellSize.
Proof.
  intros Hc Hr H8 Hfresh dst' n_cells.
  assert (Epos : pos dst' = pos dst + n_cells * kCellSize)
    by (subst dst'; apply Pack_pos).
  assert (Eadv : n_cells * kCellSize
                 = depth_extent kRegisterSize * kKernelWidth kCells).
  { subst n_cells. rewrite depth_extent_exact by assumption.
    unfold kKernelWidth, kCellSize, kCellWidth, kCellDepth.
    unfold depth_step in H8.
    rewrite Z.quot_div_nonneg by nia.
    assert (E8 : kRegisterSize = 8 * (kRegisterSize / 8)) by euclid.
    rewrite E8 at 1.
    replace (kCells * (8 * (kRegisterSize / 8)))
      with (4 * kCells * (kRegisterSize / 8) * 2) by lia.
    rewrite Z.div_mul by lia. lia. }
  assert (Hin : forall o, pos dst <= o < pos dst' -> is_Some (buf dst' !! o)).
  { intros o Ho. rewrite Epos, Eadv in Ho.
    destruct (Pack_buf_covered kCells kRegisterSize dst o Ho) as (H1 & H2 & H3).
    rewrite H3. subst dst'. rewrite Pack_byte by assumption. eauto. }
  assert (Hout : forall o, ~ (pos dst <= o < pos dst') ->
                           buf dst' !! o = buf dst !! o).
  { intros o Ho. subst dst'. apply Pack_buf_frame. rewrite <- Eadv, <- Epos.
    exact Ho. }
  split; [exact Epos|].
  split; [rewrite Pack_loops_dst_ptr, Epos, Eadv by assumption; reflexivity|].
  split; [exact Hin|]. split; [exact Hout|].
  assert (Hn : 0 <= n_cells * kCellSize).
  { rewrite Eadv. unfold depth_extent, kKernelWidth, kCellWidth. nia. }
  rewrite (size_extended_by_interval (buf dst) (buf dst') (pos dst)
             (Z.to_nat (n_cells * kCellSize))).
  - lia.
  - intros o Ho. split; [apply Hin; lia | apply Hfresh; lia].
  - intros o Ho. apply Hout. lia.
Qed.

Lemma Pack_advances_cursor_over_written_bytes_witness :
  let dst' := fst (@Pack Z counter_generator 4 2 16 example_src example_dst 3 0) in
  pos dst' = pos example_dst + Z.quot (2 * 16) kCellDepth * kCellSize
  /\ Z.of_nat (size (buf dst'))
     = Z.of_nat (size (buf example_dst)) + Z.quot (2 * 16) kCellDepth * kCellSize.
Proof.
  destruct (@Pack_advances_cursor_over_written_bytes Z counter_generator
              4 2 16 example_src example_dst 3 0) as (E & _ & _ & _ & S).
  - lia.
  - lia.
  - reflexivity.
  - intros o _. reflexivity.
  - split; [exact E | exact S].
Defined.

(** ** The order of the sub-tiles *)

Lemma fold_left_snoc_map {A B} (f : B -> A) (l : list B) (acc : list A) :
  fold_left (fun acc x => acc ++ [f x]) l acc = acc ++ map f l.
Proof.
  revert acc; induction l as [|x l IH]; intros acc; simpl.
  - now rewrite app_nil_r.
  - rewrite IH, <- app_assoc. reflexivity.
Qed.

Lemma fold_left_app_flat_map {A B} (f : B -> list A) (l : list B) (acc : list A) :
  fold_left (fun acc x => acc ++ f x) l acc = acc ++ flat_map f l.
Proof.
  revert acc; induction l as [|x l IH]; intros acc; simpl.
  - now rewrite app_nil_r.
  - rewrite IH, <- app_assoc. reflexivity.
Qed.

Lemma iteration_order_eq kCells kRegisterSize :
  iteration_order kCells kRegisterSize
  = flat_map (fun s : nat =>
                map (fun k : nat => (8 * Z.of_nat s, 4 * Z.of_nat k))
                    (seq 0 (Z.to_nat kCells)))
             (seq 0 (n_strips kRegisterSize)).
Proof.
  unfold iteration_order. rewrite Pack_outer_loop.
  rewrite (fold_left_pointwise _
             (fun acc s => acc ++ map (fun k : nat => (8 * Z.of_nat s, 4 * Z.of_nat k))
                                      (seq 0 (Z.to_nat kCells)))).
  - apply (fold_left_app_flat_map _ _ []).
  - intros acc s. rewrite Pack_inner_loop. apply fold_left_snoc_map.
Qed.

Lemma visit_index_strip_order kCells c1 d1 c2 d2 :
  0 <= c1 < kKernelWidth kCells -> 0 <= c2 < kKernelWidth kCells ->
  0 <= d1 -> 0 <= d2 ->
  strip_order depth_step c1 d1 c2 d2 ->
  (visit_index kCells c1 d1 < visit_index kCells c2 d2)%nat.
Proof.
  unfold kKernelWidth, kCellWidth, strip_order, depth_step, kCellWidth, visit_index.
  intros Hc1 Hc2 Hd1 Hd2 Hord.
  assert (H1 : 0 <= d1 / 8) by euclid. assert (H2 : 0 <= d2 / 8) by euclid.
  assert (K1 : 0 <= c1 / 4 < kCells) by euclid.
  assert (K2 : 0 <= c2 / 4 < kCells) by euclid.
  assert (R1 : 0 <= 8 * ((d1 mod 8) / 2) + 2 * (c1 mod 4) + d1 mod 2 < 32) by euclid.
  assert (R2 : 0 <= 8 * ((d2 mod 8) / 2) + 2 * (c2 mod 4) + d2 mod 2 < 32) by euclid.
  set (s1 := d1 / 8) in *. set (s2 := d2 / 8) in *.
  set (k1 := c1 / 4) in *. set (k2 := c2 / 4) in *.
  apply Z2Nat.inj_lt; [nia | nia |].
  assert (s1 * kCells + k1 < s2 * kCells + k2) by (destruct Hord; nia).
  lia.
Qed.

(** C4, with the depth step of the code: the depth extent is cut into
    strips of [depth_step] = 8 consecutive depth positions.  The loops reach the
    sub-tiles strip after strip in increasing depth and, inside a strip,
    column group after column group in increasing column; and of two
    positions of the block the one that comes first in that order has its
    byte visited, that is requantized and given its offset, first. *)
Theorem Pack_visits_strips_of_eight_in_order
    {Gen : Type} `{!ScalarRoundingOffsetGenerator Gen}
    (kBits kCells kRegisterSize : Z) (src : SideMap) (dst : PackedSideBlock)
    (start_width : Z) (g : Gen) (c1 d1 c2 d2 : Z) :
  0 <= c1 < kKernelWidth kCells -> 0 <= d1 < depth_extent kRegisterSize ->
  0 <= c2 < kKernelWidth kCells -> 0 <= d2 < depth_extent kRegisterSize ->
  strip_order depth_step c1 d1 c2 d2 ->
  let dst' := fst (Pack kBits kCells kRegisterSize src dst start_width g) in
  iteration_order kCells kRegisterSize
  = flat_map (fun s : nat =>
                map (fun k : nat => (depth_step * Z.of_nat s, kCellWidth * Z.of_nat k))
                    (seq 0 (Z.to_nat kCells)))
             (seq 0 (n_strips kRegisterSize))
  /\ buf dst' !! (pos dst + dst_offset kCells c1 d1)
     = Some (requantized kBits g (visit_index kCells c1 d1) (src_at src c1 d1))
  /\ buf dst' !! (pos dst + dst_offset kCells c2 d2)
     = Some (requantized kBits g (visit_index kCells c2 d2) (src_at src c2 d2))
  /\ (visit_index kCells c1 d1 < visit_index kCells c2 d2)%nat.
Proof.
  intros Hc1 Hd1 Hc2 Hd2 Hord dst'.
  split; [apply iteration_order_eq|].
  split; [subst dst'; now rewrite Pack_byte|].
  split; [subst dst'; now rewrite Pack_byte|].
  apply visit_index_strip_order; (assumption || lia).
Qed.

Lemma Pack_visits_strips_of_eight_in_order_witness :
  iteration_order 2 16 = [(0, 0); (0, 4); (8, 0); (8, 4)]
  /\ (visit_index 2 0 4 < visit_index 2 4 0)%nat.
Proof.
  destruct (@Pack_visits_strips_of_eight_in_order Z counter_generator
              4 2 16 example_src example_dst 3 0 0 4 4 0)
    as (E & _ & _ & L).
  - unfold kKernelWidth, kCellWidth. lia.
  - vm_compute. split; [discriminate | reflexivity].
  - unfold kKernelWidth, kCellWidth. lia.
  - vm_compute. split; [discriminate | reflexivity].
  - right. vm_compute. split; reflexivity.
  - split; [exact E | exact L].
Defined.

(** C4 with strips of 4 depth positions fails: with two column groups,
    position (column 4, depth 0) comes before (column 0, depth 4) when the
    strips have 4 depth positions, yet [Pack] visits the byte of (0, 4) as
    its 17th and that of (4, 0) as its 33rd.  On a source of ones at bit depth
    1, with the generator that rounds up at its 17th draw only, the one
    byte that comes out as 1 is that of (column 0, depth 4); and the outer
    loop starts its strips at depths 0 and 8. *)
Lemma Pack_strips_of_four_counterexample :
  let dst' := fst (@Pack Z (marker_generator 16) 1 2 16 ones_src example_dst 0 0) in
  strip_order 4 4 0 0 4
  /\ ~ (visit_index 2 4 0 < visit_index 2 0 4)%nat
  /\ buf dst' !! (pos example_dst + dst_offset 2 0 4) = Some 1
  /\ buf dst' !! (pos example_dst + dst_offset 2 4 0) = Some 0
  /\ iteration_order 2 16 = [(0, 0); (0, 4); (8, 0); (8, 4)].
Proof.
  cbv zeta. split; [left; vm_compute; reflexivity|].
  split; [vm_compute; lia|].
  repeat split; vm_compute; reflexivity.
Qed.

(** ** Determinism *)

Section Determinism.
Context {Gen : Type} `{!ScalarRoundingOffsetGenerator Gen}.
Variables (kBits kCells kRegisterSize : Z) (src1 src2 : SideMap).

Hypothesis same_block : forall c d,
  0 <= c < kKernelWidth kCells -> 0 <= d < depth_extent kRegisterSize ->
  src_at src1 c d = src_at src2 c d.

Lemma packed_group_same_block (g : Gen) (s k j : nat) :
  (s < n_strips kRegisterSize)%nat -> (k < Z.to_nat kCells)%nat -> (j < 4)%nat ->
  packed_group kBits src1 g (4 * Z.of_nat k) (8 * Z.of_nat s) j
  = packed_group kBits src2 g (4 * Z.of_nat k) (8 * Z.of_nat s) j.
Proof.
  intros Hs Hk Hj. unfold packed_group. apply map_ext_in.
  intros i Hi. apply in_seq in Hi. unfold packed_byte. f_equal.
  pose proof (Nat.div_mod_eq i 2). pose proof (Nat.mod_upper_bound i 2 ltac:(lia)).
  apply same_block.
  - unfold kKernelWidth, kCellWidth. lia.
  - unfold depth_extent. lia.
Qed.

Lemma cell_lane_sum_same_block (g : Gen) (s k w : nat) :
  (s < n_strips kRegisterSize)%nat -> (k < Z.to_nat kCells)%nat ->
  cell_lane_sum (packed_group kBits src1 g (4 * Z.of_nat k) (8 * Z.of_nat s)) w
  = cell_lane_sum (packed_group kBits src2 g (4 * Z.of_nat k) (8 * Z.of_nat s)) w.
Proof.
  intros Hs Hk. unfold cell_lane_sum.
  rewrite !(packed_group_same_block g s k) by (assumption || lia).
  reflexivity.
Qed.

Lemma Pack_same_result (dst1 dst2 : PackedSideBlock) (start_width : Z) (g : Gen) :
  buf dst1 = buf dst2 -> pos dst1 = pos dst2 ->
  (forall i, sums dst1 i = sums dst2 i) ->
  let r1 := Pack kBits kCells kRegisterSize src1 dst1 start_width g in
  let r2 := Pack kBits kCells kRegisterSize src2 dst2 start_width g in
  buf (fst r1) = buf (fst r2)
  /\ pos (fst r1) = pos (fst r2)
  /\ (forall i, sums (fst r1) i = sums (fst r2) i)
  /\ snd r1 = snd r2.
Proof.
  intros Hbuf Hpos Hsums r1 r2. subst r1 r2.
  split; [|split; [|split]].
  - apply map_eq. intros o.
    destruct (decide (pos dst1 <= o
                      < pos dst1 + depth_extent kRegisterSize * kKernelWidth kCells))
      as [Hin|Hout].
    + destruct (Pack_buf_covered kCells kRegisterSize dst1 o Hin) as (Hc & Hd & Eo).
      revert Hc Hd Eo.
      generalize (dst_column kCells (o - pos dst1)), (dst_depth kCells (o - pos dst1)).
      intros c d Hc Hd ->.
      rewrite Pack_byte by assumption.
      rewrite Hpos, Pack_byte by assumption.
      unfold block_byte. now rewrite same_block.
    + rewrite Pack_buf_frame by assumption.
      rewrite Pack_buf_frame by (rewrite <- Hpos; assumption).
      now rewrite Hbuf.
  - rewrite !Pack_pos. now rewrite Hpos.
  - intros i.
    destruct (decide (start_width <= i < start_width + kKernelWidth kCells))
      as [Hin|Hout].
    + replace i with (start_width + (i - start_width)) by lia.
      assert (Hc : 0 <= i - start_width < kKernelWidth kCells) by lia.
      rewrite !Pack_sums_lanes by assumption.
      rewrite Hsums. f_equal.
      apply sum_upto_ext. intros s Hs. unfold strip_group.
      unfold kKernelWidth, kCellWidth in Hc.
      replace (4 * ((i - start_width) / 4))
        with (4 * Z.of_nat (Z.to_nat ((i - start_width) / 4))) by euclid.
      apply cell_lane_sum_same_block; [assumption | euclid].
    + rewrite !Pack_sums_frame by assumption. apply Hsums.
  - rewrite !Pack_rog. reflexivity.
Qed.
End Determinism.

(** C8: [Pack] is deterministic.  Two calls on sources that agree on the
    block, with the same start offset, destinations in the same state and
    generators in the same state, leave the same destination bytes, the
    same cursor, the same accumulators, hence the same accumulator deltas,
    and the same generator state. *)
Theorem Pack_deterministic
    {Gen : Type} `{!ScalarRoundingOffsetGenerator Gen}
    (kBits kCells kRegisterSize : Z) (src1 src2 : SideMap)
    (dst1 dst2 : PackedSideBlock) (start_width : Z) (g : Gen) :
  (forall c d, 0 <= c < kKernelWidth kCells ->
               0 <= d < depth_extent kRegisterSize ->
               src_at src1 c d = src_at src2 c d) ->
  buf dst1 = buf dst2 -> pos dst1 = pos dst2 ->
  (forall i, sums dst1 i = sums dst2 i) ->
  let r1 := Pack kBits kCells kRegisterSize src1 dst1 start_width g in
  let r2 := Pack kBits kCells kRegisterSize src2 dst2 start_width g in
  buf (fst r1) = buf (fst r2)
  /\ pos (fst r1) = pos (fst r2)
  /\ (forall i, sums (fst r1) i = sums (fst r2) i)
  /\ (forall i, sums (fst r1) i - sums dst1 i = sums (fst r2) i - sums dst2 i)
  /\ snd r1 = snd r2.
Proof.
  intros Hsrc Hbuf Hpos Hsums r1 r2.
  destruct (Pack_same_result kBits kCells kRegisterSize src1 src2 Hsrc
              dst1 dst2 start_width g Hbuf Hpos Hsums) as (B & P & S & G).
  split; [exact B|]. split; [exact P|]. split; [exact S|].
  split; [|exact G].
  intros i. subst r1 r2. rewrite S, Hsums. reflexivity.
Qed.

Lemma Pack_deterministic_witness :
  buf (fst (@Pack Z counter_generator 4 2 16 example_src example_dst 3 0))
  = buf (fst (@Pack Z counter_generator 4 2 16 example_src' example_dst' 3 0))
  /\ snd (@Pack Z counter_generator 4 2 16 example_src example_dst 3 0)
     = snd (@Pack Z counter_generator 4 2 16 example_src' example_dst' 3 0).
Proof.
  destruct (@Pack_deterministic Z counter_generator 4 2 16
              example_src example_src' example_dst example_dst' 3 0)
    as (B & _ & _ & _ & G).
  - intros c d Hc Hd. unfold kKernelWidth, kCellWidth in Hc.
    assert (Hd' : 0 <= d < 16) by exact Hd.
    unfold src_at, data, example_src, example_src'; cbn [sm_mem sm_data sm_stride].
    destruct (Z.ltb_spec (0 + c * 16 + d) 1000); [reflexivity | lia].
  - reflexivity.
  - reflexivity.
  - intros i. unfold example_dst, example_dst'; cbn [sums]. lia.
  - split; [exact B | exact G].
Defined.

(** ** Further properties of SSERequantize *)

Lemma kMaxVal_cases b :
  1 <= b < 8 -> kMaxVal b = 2 ^ b - 1 /\ 1 <= 2 ^ b - 1 <= 127.
Proof.
  intros Hb.
  assert (Hcases : b = 1 \/ b = 2 \/ b = 3 \/ b = 4 \/ b = 5 \/ b = 6 \/ b = 7)
    by lia.
  destruct Hcases as [->|[->|[->|[->|[->|[->| ->]]]]]];
    (split; [reflexivity | cbn; lia]).
Qed.

(** The value computed for a byte and an offset that fits a byte, with
    the truncations gone. *)
Lemma requantize_value_small b v off :
  1 <= b < 8 -> 0 <= v <= 255 -> 0 <= off <= 255 ->
  requantize_value b v off = (v * (2 ^ b - 1) + off) / 255
  /\ 0 <= (v * (2 ^ b - 1) + off) / 255 <= 2 ^ b.
Proof.
  intros Hb Hv Hoff. destruct (kMaxVal_cases b Hb) as [Hm Hr].
  unfold requantize_value. rewrite Hm.
  set (m := 2 ^ b - 1) in *.
  assert (Hs : 0 <= v * m <= 255 * m) by nia.
  rewrite (Z.mod_small (v * m) 65536) by lia.
  rewrite (Z.mod_small off 256) by lia.
  rewrite Z.quot_div_nonneg by lia.
  assert (Hq : 0 <= (v * m + off) / 255 <= m + 1).
  { split; [apply Z.div_pos; lia|].
    apply Z.lt_succ_r. apply Z.div_lt_upper_bound; lia. }
  rewrite Z.mod_small by lia.
  split; [reflexivity | lia].
Qed.

(** X1: on a register of at least 8 bytes and at a bit depth other than
    8, one call draws exactly 8 offsets and byte [i < 8] becomes the
    requantization of the byte that was there with the [i]-th of them. *)
Theorem SSERequantize_low_bytes
    {Gen : Type} `{!ScalarRoundingOffsetGenerator Gen}
    (kBits : Z) (r : m128i) (g : Gen) (i : nat) :
  kBits <> 8 -> (8 <= length r)%nat -> (i < 8)%nat ->
  snd (SSERequantize kBits r g) = gen_advance 8 g
  /\ u8 (fst (SSERequantize kBits r g)) i
     = requantize_value kBits (u8 r i) (gen_offset g i).
Proof.
  intros Hb Hl Hi.
  assert (Eb : (kBits =? 8) = false) by now apply Z.eqb_neq.
  destruct r as [|x0 [|x1 [|x2 [|x3 [|x4 [|x5 [|x6 [|x7 hi]]]]]]]];
    simpl in Hl; try lia.
  rewrite SSERequantize_bytes. unfold requantized, draws. rewrite Eb.
  split; [reflexivity|].
  destruct i as [|[|[|[|[|[|[|[|i]]]]]]]]; try lia; reflexivity.
Qed.

Lemma SSERequantize_low_bytes_witness :
  snd (@SSERequantize Z counter_generator 4 (repeat 255 16) 250) = 258
  /\ u8 (fst (@SSERequantize Z counter_generator 4 (repeat 255 16) 250)) 5
     = requantize_value 4 255 0.
Proof.
  destruct (@SSERequantize_low_bytes Z counter_generator 4 (repeat 255 16) 250 5)
    as (E & B); [discriminate | simpl; lia | lia |].
  split; [exact E | exact B].
Defined.

(** X2: below bit depth 8 and for a fixed offset, requantization keeps
    the order of bytes. *)
Theorem requantize_value_monotone (b v1 v2 off : Z) :
  1 <= b < 8 -> 0 <= v1 <= v2 -> v2 <= 255 ->
  requantize_value b v1 off <= requantize_value b v2 off.
Proof.
  intros Hb H12 H2.
  destruct (kMaxVal_cases b Hb) as [_ Hr].
  assert (Ho : 0 <= off mod 256 <= 255)
    by (pose proof (Z.mod_pos_bound off 256 ltac:(lia)); lia).
  assert (E : forall v, requantize_value b v off = requantize_value b v (off mod 256)).
  { intros v. unfold requantize_value. now rewrite Z.mod_mod by lia. }
  rewrite (E v1), (E v2).
  rewrite (proj1 (requantize_value_small b v1 _ Hb ltac:(lia) Ho)).
  rewrite (proj1 (requantize_value_small b v2 _ Hb ltac:(lia) Ho)).
  apply Z.div_le_mono; [lia | nia].
Qed.

Lemma requantize_value_monotone_witness :
  requantize_value 3 100 77 <= requantize_value 3 200 77.
Proof.
  apply (requantize_value_monotone 3 100 200 77); lia.
Defined.





(** ** Further properties of Pack *)

(** X5: whatever the block, [Pack] leaves every destination byte outside
    the [depth_extent * kKernelWidth] bytes that start at the cursor as it
    was. *)
Theorem Pack_writes_only_its_block
    {Gen : Type} `{!ScalarRoundingOffsetGenerator Gen}
    (kBits kCells kRegisterSize : Z) (src : SideMap) (dst : PackedSideBlock)
    (start_width : Z) (g : Gen) (o : Z) :
  ~ (pos dst <= o < pos dst + depth_extent kRegisterSize * kKernelWidth kCells) ->
  buf (fst (Pack kBits kCells kRegisterSize src dst start_width g)) !! o
  = buf dst !! o.
Proof. apply Pack_buf_frame. Qed.

Lemma Pack_writes_only_its_block_witness :
  buf (fst (@Pack Z counter_generator 4 2 16 example_src example_dst 3 0)) !! 128
  = buf example_dst !! 128.
Proof.
  apply (@Pack_writes_only_its_block Z counter_generator
           4 2 16 example_src example_dst 3 0 128).
  vm_compute. intros [_ H]. discriminate H.
Defined.

(** X6: a block without columns or without depth is packed by moving the
    cursor only: no byte is written, no accumulator changes and the
    generator is not drawn from. *)
Theorem Pack_empty_block
    {Gen : Type} `{!ScalarRoundingOffsetGenerator Gen}
    (kBits kCells kRegisterSize : Z) (src : SideMap) (dst : PackedSideBlock)
    (start_width : Z) (g : Gen) :
  kCells <= 0 \/ kRegisterSize <= 0 ->
  Pack kBits kCells kRegisterSize src dst start_width g
  = (seek_forward_n_cells (Z.quot (kCells * kRegisterSize) kCellDepth) dst, g).
Proof.
  intros Hempty. rewrite Pack_eq.
  destruct Hempty as [Hc|Hr].
  - destruct (block_strips_no_cells kBits kCells src start_width
                (n_strips kRegisterSize) (loops_entry dst g) Hc) as [E1 E2].
    now rewrite E1, E2.
  - replace (n_strips kRegisterSize) with 0%nat; [reflexivity|].
    unfold n_strips. euclid.
Qed.

Lemma Pack_empty_block_witness :
  @Pack Z counter_generator 4 2 0 example_src example_dst 3 0
  = (example_dst, 0).
Proof.
  rewrite (@Pack_empty_block Z counter_generator 4 2 0 example_src example_dst 3 0)
    by (right; lia).
  reflexivity.
Defined.

(** X7: when the depth of the block is not a whole number of strips, the
    last strip is packed in full all the same and the cursor stops short
    of it: the byte of the last column and last depth is written at or
    beyond the new cursor. *)
Theorem Pack_ragged_depth_writes_past_cursor
    {Gen : Type} `{!ScalarRoundingOffsetGenerator Gen}
    (kBits kCells kRegisterSize : Z) (src : SideMap) (dst : PackedSideBlock)
    (start_width : Z) (g : Gen) :
  0 < kCells -> 0 < kRegisterSize -> kRegisterSize mod depth_step <> 0 ->
  let dst' := fst (Pack kBits kCells kRegisterSize src dst start_width g) in
  let c := kKernelWidth kCells - 1 in
  let d := depth_extent kRegisterSize - 1 in
  pos dst' <= pos dst + dst_offset kCells c d
  /\ buf dst' !! (pos dst + dst_offset kCells c d)
     = Some (block_byte kBits kCells src g c d).
Proof.
  intros Hc Hr H8 dst' c d.
  assert (Hext : kRegisterSize + 1 <= depth_extent kRegisterSize
                 /\ depth_extent kRegisterSize mod 2 = 0).
  { unfold depth_extent, n_strips, depth_step in *. euclid. }
  split.
  - subst dst'. rewrite Pack_pos. rewrite dst_offset_eq.
    subst c d. unfold kKernelWidth, kCellWidth, kCellDepth, kCellSize.
    rewrite Z.quot_div_nonneg by nia.
    destruct Hext as [He1 He2].
    set (D := depth_extent kRegisterSize) in *.
    assert (E1 : (D - 1) / 2 = D / 2 - 1) by euclid.
    assert (E2 : (D - 1) mod 2 = 1) by euclid.
    assert (E3 : 2 * (D / 2) = D) by euclid.
    rewrite E1, E2.
    assert (Hq : kCells * kRegisterSize / 2 * (4 * 2) <= 4 * (kCells * kRegisterSize))
      by euclid.
    set (h := D / 2) in *.
    assert (Hk : kCells * 1 <= kCells * (2 * h - kRegisterSize))
      by (apply Z.mul_le_mono_nonneg_l; lia).
    replace ((h - 1) * (8 * kCells) + 2 * (4 * kCells - 1) + 1)
      with (4 * (kCells * (2 * h - kRegisterSize))
            + 4 * (kCells * kRegisterSize) - 1) by ring.
    unfold kCellWidth, kCellDepth. lia.
  - subst dst'. apply Pack_byte.
    + subst c. unfold kKernelWidth, kCellWidth. lia.
    + subst d. lia.
Qed.

Lemma Pack_ragged_depth_writes_past_cursor_witness :
  let dst' := fst (@Pack Z counter_generator 4 2 12 example_src example_dst 3 0) in
  pos dst' <= pos example_dst + dst_offset 2 7 15
  /\ is_Some (buf dst' !! (pos example_dst + dst_offset 2 7 15)).
Proof.
  destruct (@Pack_ragged_depth_writes_past_cursor Z counter_generator
              4 2 12 example_src example_dst 3 0) as (L & B).
  - lia.
  - lia.
  - vm_compute. discriminate.
  - split; [exact L | exact (mk_is_Some _ _ B)].
Defined.

(** X8: the bytes [Pack] writes and the generator it leaves depend on
    the source, the cursor and the generator only: not on the start
    offset, nor on the bytes and accumulators the destination holds. *)
Theorem Pack_bytes_independent_of_destination
    {Gen : Type} `{!ScalarRoundingOffsetGenerator Gen}
    (kBits kCells kRegisterSize : Z) (src : SideMap)
    (dst1 dst2 : PackedSideBlock) (start_width1 start_width2 : Z) (g : Gen)
    (o : Z) :
  pos dst1 = pos dst2 ->
  pos dst1 <= o < pos dst1 + depth_extent kRegisterSize * kKernelWidth kCells ->
  buf (fst (Pack kBits kCells kRegisterSize src dst1 start_width1 g)) !! o
  = buf (fst (Pack kBits kCells kRegisterSize src dst2 start_width2 g)) !! o
  /\ snd (Pack kBits kCells kRegisterSize src dst1 start_width1 g)
     = snd (Pack kBits kCells kRegisterSize src dst2 start_width2 g).
Proof.
  intros Hpos Ho. split; [|now rewrite !Pack_rog].
  destruct (Pack_buf_covered kCells kRegisterSize dst1 o Ho) as (Hc & Hd & Eo).
  revert Hc Hd Eo.
  generalize (dst_column kCells (o - pos dst1)), (dst_depth kCells (o - pos dst1)).
  intros c d Hc Hd ->.
  rewrite Pack_byte by assumption.
  rewrite Hpos, Pack_byte by assumption. reflexivity.
Qed.

Lemma Pack_bytes_independent_of_destination_witness :
  buf (fst (@Pack Z counter_generator 4 2 16 example_src example_dst 3 0)) !! 77
  = buf (fst (@Pack Z counter_generator 4 2 16 example_src example_dst' 40 0)) !! 77.
Proof.
  apply (@Pack_bytes_independent_of_destination Z counter_generator
           4 2 16 example_src example_dst example_dst' 3 40 0 77).
  - reflexivity.
  - vm_compute. split; [discriminate | reflexivity].
Defined.

(** ** Blocks packed one after the other *)

Lemma seek_covers_block kCells kRegisterSize :
  0 <= kCells -> 0 <= kRegisterSize -> kRegisterSize mod depth_step = 0 ->
  Z.quot (kCells * kRegisterSize) kCellDepth * kCellSize
  = depth_extent kRegisterSize * kKernelWidth kCells.
Proof.
  intros Hc Hr H8. rewrite depth_extent_exact by assumption.
  unfold kKernelWidth, kCellSize, kCellWidth, kCellDepth.
  unfold depth_step in H8.
  rewrite Z.quot_div_nonneg by nia.
  assert (E8 : kRegisterSize = 8 * (kRegisterSize / 8)) by euclid.
  rewrite E8 at 1.
  replace (kCells * (8 * (kRegisterSize / 8)))
    with (4 * kCells * (kRegisterSize / 8) * 2) by lia.
  rewrite Z.div_mul by lia. lia.
Qed.

(** X9: two blocks packed one after the other, the depth being a whole
    number of strips.  The second call leaves the bytes of the first block
    in place and writes its own right after them; the cursor has advanced
    twice; and the second block takes its offsets where the first stopped,
    as if the two blocks had been visited in one go. *)
Theorem Pack_twice
    {Gen : Type} `{!ScalarRoundingOffsetGenerator Gen}
    (kBits kCells kRegisterSize : Z) (src1 src2 : SideMap)
    (dst : PackedSideBlock) (start_width1 start_width2 : Z) (g : Gen)
    (c d : Z) :
  0 <= kRegisterSize -> kRegisterSize mod depth_step = 0 ->
  0 <= c < kKernelWidth kCells -> 0 <= d < depth_extent kRegisterSize ->
  let r1 := Pack kBits kCells kRegisterSize src1 dst start_width1 g in
  let r2 := Pack kBits kCells kRegisterSize src2 (fst r1) start_width2 (snd r1) in
  let drawn := (32 * (n_strips kRegisterSize * Z.to_nat kCells))%nat in
  pos (fst r2)
  = pos dst + 2 * (Z.quot (kCells * kRegisterSize) kCellDepth * kCellSize)
  /\ buf (fst r2) !! (pos dst + dst_offset kCells c d)
     = Some (block_byte kBits kCells src1 g c d)
  /\ buf (fst r2) !! (pos (fst r1) + dst_offset kCells c d)
     = Some (requantized kBits g (drawn + visit_index kCells c d) (src_at src2 c d))
  /\ snd r2 = gen_advance (draws kBits (drawn + drawn)) g.
Proof.
  intros Hr H8 Hc Hd r1 r2 drawn.
  assert (Hk : 0 <= kCells) by (unfold kKernelWidth, kCellWidth in Hc; lia).
  pose proof (seek_covers_block kCells kRegisterSize Hk Hr H8) as Eadv.
  pose proof (dst_offset_range kCells kRegisterSize c d Hc Hd) as Hoff.
  assert (E1 : pos (fst r1)
               = pos dst + depth_extent kRegisterSize * kKernelWidth kCells)
    by (subst r1; rewrite Pack_pos, Eadv; reflexivity).
  assert (G1 : snd r1 = gen_advance (draws kBits drawn) g)
    by (subst r1; apply Pack_rog).
  split; [|split; [|split]].
  - subst r2. rewrite Pack_pos, E1, Eadv. lia.
  - subst r2. rewrite Pack_buf_frame by lia.
    subst r1. now rewrite Pack_byte.
  - subst r2. rewrite Pack_byte by assumption.
    unfold block_byte. rewrite G1, requantized_advance. reflexivity.
  - subst r2. rewrite Pack_rog, G1.
    now rewrite <- gen_advance_add, <- draws_add.
Qed.

Lemma Pack_twice_witness :
  let r1 := @Pack Z counter_generator 4 2 16 example_src example_dst 3 0 in
  let r2 := @Pack Z counter_generator 4 2 16 ones_src (fst r1) 3 (snd r1) in
  pos (fst r2) = 256
  /\ buf (fst r2) !! (pos example_dst + dst_offset 2 5 11)
     = Some (@block_byte Z counter_generator 4 2 example_src 0 5 11)
  /\ snd r2 = 256.
Proof.
  destruct (@Pack_twice Z counter_generator 4 2 16 example_src ones_src
              example_dst 3 3 0 5 11) as (P & B & _ & G).
  - lia.
  - reflexivity.
  - unfold kKernelWidth, kCellWidth. lia.
  - vm_compute. split; [discriminate | reflexivity].
  - split; [exact P|]. split; [exact B | exact G].
Defined.

(** ** Bounds on the bytes and on the accumulators *)

Lemma sum_upto_le n f (B : Z) :
  (forall k, (k < n)%nat -> f k <= B) -> sum_upto n f <= Z.of_nat n * B.
Proof.
  induction n as [|n IH]; intros E; [simpl; lia|].
  cbn [sum_upto].
  specialize (IH ltac:(intros; apply E; lia)). specialize (E n ltac:(lia)).
  rewrite Nat2Z.inj_succ. lia.
Qed.

Lemma wrap_int32_small x :
  -2147483648 <= x < 2147483648 -> wrap_int32 x = x.
Proof.
  intros Hx. unfold wrap_int32, s32.
  destruct (Z.ltb_spec (x mod 4294967296) 2147483648); euclid.
Qed.

Section BlockSums.
Context {Gen : Type} `{!ScalarRoundingOffsetGenerator Gen}.
Variables (kBits kCells kRegisterSize : Z) (src : SideMap).
Variables (dst : PackedSideBlock) (start_width : Z) (g : Gen).

Local Abbreviation dst' := (fst (Pack kBits kCells kRegisterSize src dst start_width g)).

(** The bytes of a column, read back from the destination. *)
Lemma column_sum_block_bytes (b : gmap Z Z) c :
  0 <= c < kKernelWidth kCells ->
  (forall d, 0 <= d < depth_extent kRegisterSize ->
             b !! (pos dst + dst_offset kCells c d)
             = Some (block_byte kBits kCells src g c d)) ->
  column_sum b (pos dst) kCells c (Z.to_nat (depth_extent kRegisterSize))
  = sum_upto (8 * n_strips kRegisterSize)
      (fun d => block_byte kBits kCells src g c (Z.of_nat d)).
Proof.
  intros Hc Hb. unfold column_sum.
  replace (Z.to_nat (depth_extent kRegisterSize))
    with (8 * n_strips kRegisterSize)%nat by (unfold depth_extent; lia).
  apply sum_upto_ext. intros d Hd.
  rewrite Hb; [reflexivity | unfold depth_extent; lia].
Qed.

Hypothesis src_bytes : forall c d,
  0 <= c < kKernelWidth kCells -> 0 <= d < depth_extent kRegisterSize ->
  0 <= src_at src c d < 256.

Lemma Pack_sums_block_bytes c :
  0 < kRegisterSize -> 0 <= c < kKernelWidth kCells ->
  sums dst' (start_width + c)
  = wrap_int32 (sums dst (start_width + c)
                + sum_upto (8 * n_strips kRegisterSize)
                    (fun d => block_byte kBits kCells src g c (Z.of_nat d))).
Proof.
  intros Hr Hc. rewrite Pack_sums_lanes by assumption.
  rewrite sum_upto_strips.
  destruct (n_strips kRegisterSize) as [|N'] eqn:EN.
  { unfold n_strips in EN. exfalso. euclid. }
  rewrite <- EN. cbn [accumulated]. rewrite EN at 1. cbn [accumulated].
  do 2 f_equal. apply sum_upto_ext. intros s Hs.
  apply (strip_lane_sum kBits kCells kRegisterSize src g src_bytes); assumption.
Qed.

Lemma block_bytes_sum_bounds c :
  0 <= c < kKernelWidth kCells ->
  0 <= sum_upto (8 * n_strips kRegisterSize)
         (fun d => block_byte kBits kCells src g c (Z.of_nat d))
    <= 255 * depth_extent kRegisterSize.
Proof.
  intros Hc. split.
  - apply sum_upto_nonneg. intros d Hd.
    apply (block_byte_range kBits kCells kRegisterSize src g src_bytes);
      [assumption | unfold depth_extent; lia].
  - etransitivity; [apply (sum_upto_le _ _ 255)|unfold depth_extent; lia].
    intros d Hd.
    pose proof (block_byte_range kBits kCells kRegisterSize src g src_bytes
                  c (Z.of_nat d) Hc ltac:(unfold depth_extent; lia)).
    lia.
Qed.
End BlockSums.

(** X10: when the prior value of the accumulator of a column leaves room,
    within 32 bits, for 255 per depth position, [Pack] adds to it without
    wrap-around: it ends as its prior value plus the sum of the bytes
    written for the column, which is at most 255 per depth position. *)
Theorem Pack_accumulates_exactly
    {Gen : Type} `{!ScalarRoundingOffsetGenerator Gen}
    (kBits kCells kRegisterSize : Z) (src : SideMap) (dst : PackedSideBlock)
    (start_width : Z) (g : Gen) (c : Z) :
  0 < kRegisterSize ->
  0 <= c < kKernelWidth kCells ->
  (forall c d, 0 <= c < kKernelWidth kCells ->
               0 <= d < depth_extent kRegisterSize ->
               0 <= src_at src c d < 256) ->
  -2147483648 <= sums dst (start_width + c) ->
  sums dst (start_width + c) + 255 * depth_extent kRegisterSize < 2147483648 ->
  let dst' := fst (Pack kBits kCells kRegisterSize src dst start_width g) in
  let added :=
    column_sum (buf dst') (pos dst) kCells c (Z.to_nat (depth_extent kRegisterSize)) in
  sums dst' (start_width + c) = sums dst (start_width + c) + added
  /\ 0 <= added <= 255 * depth_extent kRegisterSize.
Proof.
  intros Hr Hc Hsrc Hlo Hhi dst' added.
  pose proof (block_bytes_sum_bounds kBits kCells kRegisterSize src g Hsrc c Hc) as Hb.
  assert (Ea : added = sum_upto (8 * n_strips kRegisterSize)
                         (fun d => block_byte kBits kCells src g c (Z.of_nat d))).
  { subst added. apply column_sum_block_bytes; [assumption|].
    intros d Hd. subst dst'. now apply Pack_byte. }
  rewrite Ea. split; [|exact Hb].
  subst dst'. rewrite (Pack_sums_block_bytes kBits kCells kRegisterSize src dst
                         start_width g Hsrc c Hr Hc).
  apply wrap_int32_small. lia.
Qed.

Lemma Pack_accumulates_exactly_witness :
  let dst' := fst (@Pack Z counter_generator 4 2 16 example_src example_dst 3 0) in
  sums dst' (3 + 5)
  = sums example_dst (3 + 5)
    + column_sum (buf dst') (pos example_dst) 2 5 (Z.to_nat (depth_extent 16)).
Proof.
  apply (@Pack_accumulates_exactly Z counter_generator
           4 2 16 example_src example_dst 3 0 5).
  - lia.
  - unfold kKernelWidth, kCellWidth. lia.
  - intros c d _ _. unfold src_at, example_src; cbn [sm_mem].
    apply Z.mod_pos_bound. lia.
  - vm_compute. discriminate.
  - vm_compute. reflexivity.
Defined.

(** X11: two blocks packed one after the other at the same start offset,
    the depth being a whole number of strips: the accumulator of a column
    ends as its value before the first call plus the sums of the bytes of
    the column in both blocks, in wrapping 32-bit arithmetic. *)
Theorem Pack_twice_accumulates
    {Gen : Type} `{!ScalarRoundingOffsetGenerator Gen}
    (kBits kCells kRegisterSize : Z) (src1 src2 : SideMap)
    (dst : PackedSideBlock) (start_width : Z) (g : Gen) (c : Z) :
  0 < kRegisterSize -> kRegisterSize mod depth_step = 0 ->
  0 <= c < kKernelWidth kCells ->
  (forall c d, 0 <= c < kKernelWidth kCells ->
               0 <= d < depth_extent kRegisterSize ->
               0 <= src_at src1 c d < 256 /\ 0 <= src_at src2 c d < 256) ->
  let r1 := Pack kBits kCells kRegisterSize src1 dst start_width g in
  let r2 := Pack kBits kCells kRegisterSize src2 (fst r1) start_width (snd r1) in
  let depth := Z.to_nat (depth_extent kRegisterSize) in
  sums (fst r2) (start_width + c)
  = wrap_int32 (sums dst (start_width + c)
                + (column_sum (buf (fst r2)) (pos dst) kCells c depth
                   + column_sum (buf (fst r2)) (pos (fst r1)) kCells c depth)).
Proof.
  intros Hr H8 Hc Hsrc r1 r2 depth.
  assert (Hs1 : forall c d, 0 <= c < kKernelWidth kCells ->
                  0 <= d < depth_extent kRegisterSize -> 0 <= src_at src1 c d < 256)
    by (intros; now apply Hsrc).
  assert (Hs2 : forall c d, 0 <= c < kKernelWidth kCells ->
                  0 <= d < depth_extent kRegisterSize -> 0 <= src_at src2 c d < 256)
    by (intros; now apply Hsrc).
  assert (Hk : 0 <= kCells) by (unfold kKernelWidth, kCellWidth in Hc; lia).
  pose proof (seek_covers_block kCells kRegisterSize Hk ltac:(lia) H8) as Eadv.
  assert (E1 : pos (fst r1)
               = pos dst + depth_extent kRegisterSize * kKernelWidth kCells)
    by (subst r1; rewrite Pack_pos, Eadv; reflexivity).
  subst depth.
  rewrite (column_sum_block_bytes kBits kCells kRegisterSize src1 dst g).
  2: assumption.
  2:{ intros d Hd.
      pose proof (dst_offset_range kCells kRegisterSize c d Hc Hd).
      subst r2. rewrite Pack_buf_frame by lia.
      subst r1. now apply Pack_byte. }
  rewrite (column_sum_block_bytes kBits kCells kRegisterSize src2 (fst r1) (snd r1)).
  2: assumption.
  2:{ intros d Hd. subst r2. now apply Pack_byte. }
  subst r2.
  rewrite (Pack_sums_block_bytes kBits kCells kRegisterSize src2 (fst r1)
             start_width (snd r1) Hs2 c Hr Hc).
  subst r1.
  rewrite (Pack_sums_block_bytes kBits kCells kRegisterSize src1 dst
             start_width g Hs1 c Hr Hc).
  rewrite wrap_int32_add_l. f_equal. lia.
Qed.

Lemma Pack_twice_accumulates_witness :
  let r1 := @Pack Z counter_generator 4 2 16 example_src example_dst 3 0 in
  let r2 := @Pack Z counter_generator 4 2 16 ones_src (fst r1) 3 (snd r1) in
  sums (fst r2) (3 + 5)
  = wrap_int32 (sums example_dst (3 + 5)
                + (column_sum (buf (fst r2)) (pos example_dst) 2 5
                              (Z.to_nat (depth_extent 16))
                   + column_sum (buf (fst r2)) (pos (fst r1)) 2 5
                                (Z.to_nat (depth_extent 16)))).
Proof.
  apply (@Pack_twice_accumulates Z counter_generator
           4 2 16 example_src ones_src example_dst 3 0 5).
  - lia.
  - reflexivity.
  - unfold kKernelWidth, kCellWidth. lia.
  - intros c d _ _. unfold src_at, example_src, ones_src; cbn [sm_mem].
    split; [apply Z.mod_pos_bound|]; lia.
Defined.

(** X12: when the source holds bytes and the generator gives offsets in
    [0,254], every byte [Pack] writes for a bit depth in [1,8] lies in
    [0, 2^kBits - 1]. *)
Theorem Pack_written_bytes_in_range
    {Gen : Type} `{!ScalarRoundingOffsetGenerator Gen}
    (kBits kCells kRegisterSize : Z) (src : SideMap) (dst : PackedSideBlock)
    (start_width : Z) (g : Gen) (c d : Z) :
  1 <= kBits <= 8 ->
  (forall k, 0 <= gen_offset g k <= 254) ->
  0 <= c < kKernelWidth kCells -> 0 <= d < depth_extent kRegisterSize ->
  0 <= src_at src c d < 256 ->
  exists v,
    buf (fst (Pack kBits kCells kRegisterSize src dst start_width g))
      !! (pos dst + dst_offset kCells c d) = Some v
    /\ 0 <= v <= 2 ^ kBits - 1.
Proof.
  intros Hb Hg Hc Hd Hv.
  exists (block_byte kBits kCells src g c d).
  split; [now apply Pack_byte|].
  unfold block_byte, requantized.
  destruct (Z.eqb_spec kBits 8) as [->|Hne].
  - change (2 ^ 8 - 1) with 255. lia.
  - specialize (Hg (visit_index kCells c d)).
    destruct (kMaxVal_cases kBits ltac:(lia)) as [_ Hm].
    assert (Hb' : 1 <= kBits < 8) by lia.
    assert (Hv' : 0 <= src_at src c d <= 255) by lia.
    assert (Ho' : 0 <= gen_offset g (visit_index kCells c d) <= 255) by lia.
    rewrite (proj1 (requantize_value_small kBits _ _ Hb' Hv' Ho')).
    set (m := 2 ^ kBits - 1) in *.
    set (off := gen_offset g (visit_index kCells c d)) in *.
    split; [apply Z.div_pos; nia|].
    apply Z.lt_succ_r. apply Z.div_lt_upper_bound; nia.
Qed.

Lemma Pack_written_bytes_in_range_witness :
  exists v,
    buf (fst (@Pack Z counter_generator 4 2 16 example_src example_dst 3 0))
      !! (pos example_dst + dst_offset 2 5 11) = Some v
    /\ 0 <= v <= 2 ^ 4 - 1.
Proof.
  apply (@Pack_written_bytes_in_range Z counter_generator
           4 2 16 example_src example_dst 3 0 5 11).
  - lia.
  - intros k. unfold gen_offset; cbn [get counter_generator fst].
    pose proof (Z.mod_pos_bound (@gen_advance Z counter_generator k 0) 255
                  ltac:(lia)). lia.
  - unfold kKernelWidth, kCellWidth. lia.
  - vm_compute. split; [discriminate | reflexivity].
  - unfold src_at, example_src; cbn [sm_mem]. apply Z.mod_pos_bound. lia.
Defined.
